(** * bokehjs/make/task.ts: the task-graph engine

    A shallow embedding of the dependency-graph task runner of
    [bokehjs/make/task.ts]: the [Result] algebra, the task registry (a
    JavaScript [Map]), the name resolver [resolve_task], the executor
    [exec_task] and the memoizing graph runner [run] with its inner
    function [_run].

    Modelling decisions.
    - Strings are [String.string]; [name.split(":", 2)],
      [String.prototype.endsWith] and template literals are written out.
    - A JavaScript [Map] is an association list in insertion order; [set]
      on a key that is present replaces the value in place.
    - The per-run cache [finished] is keyed by the [Task] object in the
      source.  Every task the runner meets comes from the registry, where
      one name owns one object, so the cache is keyed here by the task name
      (see [registry_ok] and [resolve_task_in]).
    - An action ([Fn]) is an effectful asynchronous function: it is a
      total function on a state of the outside world, returning the new
      world and how its promise settles.
    - [console.log] output is recorded as a list of events; time stamps and
      durations are left out.  The colouring functions of [chalk] are
      parameters.
    - [async]/[await] is sequential here (one task at a time), so a
      rejected promise is an exception: every function returns an
      [Outcome].  Recursion of [_run] is bounded by a fuel argument;
      [OutOfFuel] stands for a recursion that has not come back yet.  A
      recursion that never comes back is, in the source, a call that
      never settles or one that ends with the [RangeError] of the call
      stack; neither gives a [Result].
    - What is thrown and caught is any value.  [undefined] and [null] are
      kept apart from the values that have a text, because
      [show_failure] reads [error.stack] and throws on them. *)

From Stdlib Require Import String Ascii List Bool Arith Lia.
From Stdlib Require Import Relations.Relation_Operators Relations.Operators_Properties.
Import ListNotations.
Open Scope string_scope.
Open Scope list_scope.

(* ================================================================== *)
(** ** JavaScript strings *)

Module JsString.

(** [split_on sep s]: [s.split(sep)] for a one-character separator; the
    result always has at least one segment. *)
Fixpoint split_on (sep : ascii) (s : string) : list string :=
  match s with
  | EmptyString => [EmptyString]
  | String c rest =>
      if Ascii.eqb c sep then EmptyString :: split_on sep rest
      else match split_on sep rest with
           | seg :: segs => String c seg :: segs
           | [] => [String c EmptyString]
           end
  end.

(** [s.split(sep, limit)]: all the segments are computed and the first
    [limit] of them are kept. *)
Definition split (sep : ascii) (limit : nat) (s : string) : list string :=
  firstn limit (split_on sep s).

(** [s.endsWith(suffix)]. *)
Definition endsWith (s suffix : string) : bool :=
  let n := String.length s in
  let m := String.length suffix in
  if Nat.leb m n then String.eqb (substring (n - m) m s) suffix else false.

(** String conversion inside a template literal: [undefined] prints as
    the word "undefined". *)
Definition template (o : option string) : string :=
  match o with
  | Some s => s
  | None => "undefined"
  end.

(** Whether a character occurs in a string. *)
Fixpoint contains (c : ascii) (s : string) : bool :=
  match s with
  | EmptyString => false
  | String d rest => Ascii.eqb d c || contains c rest
  end.

End JsString.

(* ================================================================== *)
(** ** JavaScript [Map] with string keys *)

Module JsMap.

Section Ops.
Context {V : Type}.

Fixpoint get (k : string) (m : list (string * V)) : option V :=
  match m with
  | [] => None
  | (k', v) :: rest => if String.eqb k' k then Some v else get k rest
  end.

Definition has (k : string) (m : list (string * V)) : bool :=
  match get k m with
  | Some _ => true
  | None => false
  end.

(** [m.set(k, v)]: a present key keeps its place, a new key goes last. *)
Fixpoint set (k : string) (v : V) (m : list (string * V)) : list (string * V) :=
  match m with
  | [] => [(k, v)]
  | (k', v') :: rest =>
      if String.eqb k' k then (k, v) :: rest else (k', v') :: set k v rest
  end.

Definition keys (m : list (string * V)) : list string := map fst m.
Definition values (m : list (string * V)) : list V := map snd m.
End Ops.

End JsMap.

(* ================================================================== *)
(** ** The Result algebra *)

(** Values an action can hand back besides a [Result]. *)
Inductive Value : Type :=
| VUndefined
| VNull
| VNumber (n : nat)
| VString (s : string).

(** What can be thrown and caught, which is any value: a [BuildError]
    with its component and message; any other value that has a stack or
    a string form, kept as that text; or one of the two values that have
    no properties at all, [undefined] ([Nullish false]) and [null]
    ([Nullish true]), as in [throw undefined] or a promise rejected
    without a reason. *)
Inductive Error : Type :=
| BuildError (component message : string)
| OtherError (text : string)
| Nullish (is_null : bool).

(** [error.stack ?? error.toString()] can be read. *)
Definition printable (e : Error) : Prop :=
  match e with
  | Nullish _ => False
  | _ => True
  end.

Inductive Result : Type :=
| Success (value : Value)
| Failure (value : Error).

Definition is_Success (r : Result) : bool :=
  match r with
  | Success _ => true
  | Failure _ => false
  end.

Definition is_Failure (r : Result) : bool :=
  match r with
  | Success _ => false
  | Failure _ => true
  end.

Definition success (value : Value) : Result := Success value.
Definition failure (error : Error) : Result := Failure error.

(** The value a settled action promise carries at run time.  The declared
    type [Fn<T> = () => Promise<Result<T> | void>] admits [RetResult] and
    [RetValue VUndefined] only. *)
Inductive Returned : Type :=
| RetValue (v : Value)
| RetResult (r : Result).

Inductive Settled : Type :=
| Resolves (value : Returned)
| Rejects (error : Error).

(** [value === undefined] *)
Definition is_undefined (x : Returned) : bool :=
  match x with
  | RetValue VUndefined => true
  | _ => false
  end.

Definition well_typed (s : Settled) : Prop :=
  match s with
  | Resolves (RetValue VUndefined) => True
  | Resolves (RetValue _) => False
  | Resolves (RetResult _) => True
  | Rejects _ => True
  end.

(** No Failure that the promise settles with carries [undefined] or
    [null]. *)
Definition printable_settled (s : Settled) : Prop :=
  match s with
  | Rejects e => printable e
  | Resolves (RetResult (Failure e)) => printable e
  | Resolves _ => True
  end.

(** The error raised by calling a method that a value does not have. *)
Definition type_error : Error :=
  OtherError "TypeError: result.is_Success is not a function".

(** The error raised by calling a method of [null]. *)
Definition null_type_error : Error :=
  OtherError "TypeError: Cannot read properties of null (reading 'is_Success')".

(** The error raised by reading [error.stack] of [undefined] or [null]. *)
Definition stack_type_error (is_null : bool) : Error :=
  OtherError
    (if is_null
     then "TypeError: Cannot read properties of null (reading 'stack')"
     else "TypeError: Cannot read properties of undefined (reading 'stack')").

(** How a computation of the engine ends. *)
Inductive Outcome (A : Type) : Type :=
| Done (a : A)
| Thrown (e : Error)
| OutOfFuel.
Arguments Done {A} a.
Arguments Thrown {A} e.
Arguments OutOfFuel {A}.

(** What the engine writes on the console, and the calls of actions. *)
Inductive Event : Type :=
| LogFinished (n : string)              (* Finished 'n'            *)
| LogStarting (n : string)              (* Starting 'n'...         *)
| Invoke (n : string)                   (* await task.fn()         *)
| LogAfter (n : string) (ok : bool)     (* Finished|Failed 'n' after d *)
| ShowFailure (e : Error).              (* show_failure(result)    *)

(* ================================================================== *)
(** ** Tasks, registry, resolver, executor, runner *)

Section Engine.

(** The state of everything outside the engine that actions read and
    write. *)
Variable World : Type.

(** [chalk.cyan], from the chalk package. *)
Variable cyan : string -> string.

Definition Fn : Type := World -> World * Settled.

Record Task : Type := mkTask {
  name : string;
  deps : list string;
  fn : option Fn
}.

(** The second argument of [task]: a dependency array or the action. *)
Inductive DepsOrFn : Type :=
| ADeps (deps : list string)
| AFn (fn : Fn).

(** [task(name, deps, fn)]: registers into the registry, which is passed
    and returned. *)
Definition task (name : string) (deps : DepsOrFn) (fn : option Fn)
    (tasks : list (string * Task)) : list (string * Task) :=
  let '(deps, fn) :=
    match deps with
    | ADeps l => (l, fn)
    | AFn f => ([], Some f)
    end in
  let t := mkTask name deps fn in
  JsMap.set name t tasks.

Definition task_names (tasks : list (string * Task)) : list string :=
  JsMap.keys tasks.

(** What [task] maintains: keys are distinct and every task sits under
    its own name. *)
Definition registry_ok (tasks : list (string * Task)) : Prop :=
  NoDup (JsMap.keys tasks) /\
  Forall (fun kv => fst kv = name (snd kv)) tasks.

(** ** Run state *)

Record RunState : Type := mkState {
  world : World;
  finished : list (string * Result);
  trace : list Event
}.

Definition init (w : World) : RunState :=
  {| world := w; finished := []; trace := [] |}.

Definition emit (e : Event) (st : RunState) : RunState :=
  {| world := world st; finished := finished st; trace := trace st ++ [e] |}.

Definition set_world (w : World) (st : RunState) : RunState :=
  {| world := w; finished := finished st; trace := trace st |}.

Definition finished_set (n : string) (r : Result) (st : RunState) : RunState :=
  {| world := world st;
     finished := JsMap.set n r (finished st);
     trace := trace st |}.

(** [show_failure(failure)]: one report of the error; whether it is
    written as a "failed:" line (a [BuildError]) or as a stack trace is a
    matter of layout and is not kept here (see [show_failure_messages]).
    [undefined] and [null] are no [BuildError], and reading their
    [stack] throws a [TypeError] before anything is written. *)
Definition show_failure (error : Error) (st : RunState)
    : Outcome unit * RunState :=
  match error with
  | Nullish is_null => (Thrown (stack_type_error is_null), st)
  | _ => (Done tt, emit (ShowFailure error) st)
  end.

(** ** The registry is fixed during a run *)

Variable tasks : list (string * Task).

(** [o == s] for [o] a string or [undefined]. *)
Definition opt_is (o : option string) (s : string) : bool :=
  match o with
  | Some x => String.eqb x s
  | None => false
  end.

(** [const [prefix, suffix] = name.split(":", 2)] *)
Definition split_name (name : string) : option string * option string :=
  let parts := JsString.split ":" 2 name in
  (nth_error parts 0, nth_error parts 1).

(** The error of the last branch of [resolve_task]. *)
Definition unknown_task (n : string) (parent : option Task) : Error :=
  let message := ("unknown task '" ++ cyan n ++ "'")%string in
  let message :=
    match parent with
    | Some p => (message ++ " referenced from '" ++ cyan (name p) ++ "'")%string
    | None => message
    end in
  BuildError "build" message.

(** The generator [resolve_task], run to its end: the tasks it yields in
    order, or the error it throws.  The throw is on its first step, before
    anything is yielded, and the registry does not change while the
    caller works on a yielded task, so nothing is lost by producing the
    whole list at once.  After [tasks.has(name)] the lookup
    [tasks.get(name)!] finds the task; the [None] branch is never taken. *)
Definition resolve_task (n : string) (parent : option Task)
    : Error + list Task :=
  let '(prefix, suffix) := split_name n in
  if opt_is prefix "*" then
    inr (filter
           (fun task => JsString.endsWith (name task) (":" ++ JsString.template suffix)%string)
           (JsMap.values tasks))
  else if JsMap.has n tasks then
    match JsMap.get n tasks with
    | Some t => inr [t]
    | None => inr []
    end
  else inl (unknown_task n parent).

(** ** [exec_task]

    The two time stamps and the duration only feed the text of the closing
    line.  That line calls [result.is_Success()]: on a value that is not a
    [Result] the call throws a [TypeError], outside the [try] block. *)

Definition exec_task (task : Task) (st : RunState) : Outcome Result * RunState :=
  match fn task with
  | None =>
      (Done (success VUndefined), emit (LogFinished (name task)) st)
  | Some f =>
      let st := emit (LogStarting (name task)) st in
      let '(w, settled) := f (world st) in
      let st := emit (Invoke (name task)) (set_world w st) in
      let result :=
        match settled with
        | Resolves value =>
            if is_undefined value then RetResult (success VUndefined) else value
        | Rejects error => RetResult (failure error)
        end in
      match result with
      | RetResult r => (Done r, emit (LogAfter (name task) (is_Success r)) st)
      | RetValue VNull => (Thrown null_type_error, st)
      | RetValue _ => (Thrown type_error, st)
      end
  end.

(** ** The loops of [_run] and [run], over the recursive call *)

Section Loops.
Variable exec : Task -> RunState -> Outcome Result * RunState.

(** [for (const dep of resolve_task(name, task))] in [_run] *)
Fixpoint for_deps (l : list Task) (failed : bool) (st : RunState)
    : Outcome bool * RunState :=
  match l with
  | [] => (Done failed, st)
  | dep :: rest =>
      match exec dep st with
      | (Done result, st') =>
          for_deps rest (if is_Failure result then true else failed) st'
      | (Thrown e, st') => (Thrown e, st')
      | (OutOfFuel, st') => (OutOfFuel, st')
      end
  end.

(** [for (const name of task.deps)] in [_run] *)
Fixpoint for_names (task : Task) (names : list string) (failed : bool)
    (st : RunState) : Outcome bool * RunState :=
  match names with
  | [] => (Done failed, st)
  | n :: rest =>
      match resolve_task n (Some task) with
      | inl e => (Thrown e, st)
      | inr l =>
          match for_deps l failed st with
          | (Done failed', st') => for_names task rest failed' st'
          | other => other
          end
      end
  end.

(** [for (const task of resolve_task(name))] in [run]; [Some result] is
    the [return result] in the loop. *)
Fixpoint top_tasks (l : list Task) (st : RunState)
    : Outcome (option Result) * RunState :=
  match l with
  | [] => (Done None, st)
  | task :: rest =>
      match exec task st with
      | (Done result, st') =>
          if is_Failure result then (Done (Some result), st')
          else top_tasks rest st'
      | (Thrown e, st') => (Thrown e, st')
      | (OutOfFuel, st') => (OutOfFuel, st')
      end
  end.

(** [for (const name of names)] in [run] *)
Fixpoint top_names (names : list string) (st : RunState)
    : Outcome Result * RunState :=
  match names with
  | [] => (Done (success VUndefined), st)
  | n :: rest =>
      match resolve_task n None with
      | inl e => (Thrown e, st)
      | inr l =>
          match top_tasks l st with
          | (Done (Some result), st') => (Done result, st')
          | (Done None, st') => top_names rest st'
          | (Thrown e, st') => (Thrown e, st')
          | (OutOfFuel, st') => (OutOfFuel, st')
          end
      end
  end.
End Loops.

Definition failed_message (task : Task) : string :=
  ("task '" ++ cyan (name task) ++ "' failed")%string.

(** The second half of [_run], from [let result: Result] on, once the
    dependency loops have set [failed]. *)
Definition conclude (task : Task) (failed : bool) (st : RunState)
    : Outcome Result * RunState :=
  let exec :=
    if negb failed then exec_task task st
    else (Done (failure (BuildError (name task) (failed_message task))), st) in
  match exec with
  | (Done result, st) =>
      let st := finished_set (name task) result st in
      match result with
      | Failure error =>
          match show_failure error st with
          | (Done _, st) => (Done result, st)
          | (Thrown e, st) => (Thrown e, st)
          | (OutOfFuel, st) => (OutOfFuel, st)
          end
      | Success _ => (Done result, st)
      end
  | other => other
  end.

(** ** [_run]

    [finished.has(task)] followed by [finished.get(task)!] is the one
    lookup [JsMap.get]. *)
Fixpoint _run (fuel : nat) (task : Task) (st : RunState) {struct fuel}
    : Outcome Result * RunState :=
  match fuel with
  | O => (OutOfFuel, st)
  | S fuel' =>
      match JsMap.get (name task) (finished st) with
      | Some r => (Done r, st)
      | None =>
          match for_names (_run fuel') task (deps task) false st with
          | (Done failed, st) => conclude task failed st
          | (Thrown e, st) => (Thrown e, st)
          | (OutOfFuel, st) => (OutOfFuel, st)
          end
      end
  end.

(** ** [run] *)
Definition run_from (fuel : nat) (names : list string) (st : RunState)
    : Outcome Result * RunState :=
  top_names (_run fuel) names st.

Definition run (fuel : nat) (names : list string) (w : World)
    : Outcome Result * RunState :=
  run_from fuel names (init w).

End Engine.

Arguments name {World} _.
Arguments deps {World} _.
Arguments fn {World} _.
Arguments mkTask {World} _ _ _.
Arguments world {World} _.
Arguments finished {World} _.
Arguments trace {World} _.
Arguments init {World} _.
Arguments emit {World} _ _.
Arguments finished_set {World} _ _ _.
Arguments set_world {World} _ _.
Arguments show_failure {World} _ _.
Arguments task {World} _ _ _ _.
Arguments task_names {World} _.
Arguments registry_ok {World} _.
Arguments unknown_task {World} _ _ _.
Arguments resolve_task {World} _ _ _ _.
Arguments exec_task {World} _ _.
Arguments for_deps {World} _ _ _ _.
Arguments for_names {World} _ _ _ _ _ _.
Arguments top_tasks {World} _ _ _.
Arguments top_names {World} _ _ _ _.
Arguments failed_message {World} _ _.
Arguments conclude {World} _ _ _ _.
Arguments _run {World} _ _ _ _ _.
Arguments run_from {World} _ _ _ _ _.
Arguments run {World} _ _ _ _ _.

(* ================================================================== *)
(** ** Vocabulary of the properties *)

Section Vocabulary.

Context {World : Type}.
Variable cyan : string -> string.
Variable tasks : list (string * Task World).

(** A task object held by the registry. *)
Definition registered (t : Task World) : Prop := In t (JsMap.values tasks).

(** [resolved_dep t d]: some dependency pattern of [t] resolves to a
    sequence that contains [d]. *)
Definition resolved_dep (t d : Task World) : Prop :=
  exists n l,
    In n (deps t) /\ resolve_task cyan tasks n (Some t) = inr l /\ In d l.

(** [t] can reach itself through resolved dependencies. *)
Definition on_cycle (t : Task World) : Prop :=
  clos_trans (Task World) resolved_dep t t.

Definition acyclic : Prop :=
  forall t, registered t -> ~ on_cycle t.

(** Every action of the registry keeps to its declared type [Fn]. *)
Definition typed_registry : Prop :=
  forall t f w, registered t -> fn t = Some f -> well_typed (snd (f w)).

(** No action of the registry settles with a Failure that carries
    [undefined] or [null]. *)
Definition printable_failures : Prop :=
  forall t f w,
    registered t -> fn t = Some f -> printable_settled (snd (f w)).

(** Every dependency pattern of every task of the registry resolves. *)
Definition resolvable : Prop :=
  forall t n,
    registered t -> In n (deps t) ->
    exists l, resolve_task cyan tasks n (Some t) = inr l.

(** Names of the tasks whose action was called, oldest first. *)
Fixpoint invocations (tr : list Event) : list string :=
  match tr with
  | [] => []
  | Invoke n :: rest => n :: invocations rest
  | _ :: rest => invocations rest
  end.

(** Names in the start lines. *)
Fixpoint starts (tr : list Event) : list string :=
  match tr with
  | [] => []
  | LogStarting n :: rest => n :: starts rest
  | _ :: rest => starts rest
  end.

(** Names in the finish lines that close an action. *)
Fixpoint finishes (tr : list Event) : list string :=
  match tr with
  | [] => []
  | LogAfter n _ :: rest => n :: finishes rest
  | _ :: rest => finishes rest
  end.

(** Names in the finish lines of tasks that have no action. *)
Fixpoint plain_finishes (tr : list Event) : list string :=
  match tr with
  | [] => []
  | LogFinished n :: rest => n :: plain_finishes rest
  | _ :: rest => plain_finishes rest
  end.

(** Errors handed to [show_failure]. *)
Fixpoint shown (tr : list Event) : list Error :=
  match tr with
  | [] => []
  | ShowFailure e :: rest => e :: shown rest
  | _ :: rest => shown rest
  end.

(** Errors of the Failure results of a cache, in insertion order. *)
Fixpoint failures (m : list (string * Result)) : list Error :=
  match m with
  | [] => []
  | (_, Failure e) :: rest => e :: failures rest
  | (_, Success _) :: rest => failures rest
  end.

(** The cache of [st'] holds every entry of the cache of [st]. *)
Definition extends (st st' : RunState World) : Prop :=
  forall n r,
    JsMap.get n (finished st) = Some r -> JsMap.get n (finished st') = Some r.

(** Every called action has a cache entry, and no action was called
    twice. *)
Definition consistent (st : RunState World) : Prop :=
  NoDup (invocations (trace st)) /\
  forall n, In n (invocations (trace st)) -> JsMap.get n (finished st) <> None.

(** No task on a cycle has a cache entry. *)
Definition cycles_open (st : RunState World) : Prop :=
  forall t, registered t -> on_cycle t -> JsMap.get (name t) (finished st) = None.

(** [waiting A d]: while [d] runs, [A] is a set of registered tasks each
    of which has a resolved dependency that is in [A] too or is [d]. *)
Definition waiting (A : Task World -> Prop) (d : Task World) : Prop :=
  forall a, A a ->
    registered a /\ exists y, resolved_dep a y /\ (A y \/ y = d).

(** No task of [A] has a cache entry. *)
Definition unfinished (A : Task World -> Prop) (st : RunState World) : Prop :=
  forall a, A a -> JsMap.get (name a) (finished st) = None.

(** What the reporter has been told agrees with what happened: start
    lines, calls of actions and closing lines go together; plain finish
    lines belong to tasks without an action; the errors shown are the
    errors cached, in the same order. *)
Definition reported (st : RunState World) : Prop :=
  starts (trace st) = invocations (trace st) /\
  finishes (trace st) = invocations (trace st) /\
  shown (trace st) = failures (finished st) /\
  (forall n, In n (starts (trace st)) ->
     exists t, registered t /\ name t = n /\ fn t <> None) /\
  (forall n, In n (plain_finishes (trace st)) ->
     exists t, registered t /\ name t = n /\ fn t = None).

(** What the dependency loops ask of the recursive call [exec] on [x]:
    it stores what it returns and keeps the entries of the cache. *)
Definition keeps_cache
    (exec : Task World -> RunState World -> Outcome Result * RunState World)
    (x : Task World) : Prop :=
  (forall s r s', exec x s = (Done r, s') ->
     JsMap.get (name x) (finished s') = Some r) /\
  (forall s, extends s (snd (exec x s))).

(** [all_succeed fuel l st st']: executing the tasks of [l] one after the
    other from [st] returns a Success each time and ends in [st']. *)
Inductive all_succeed (fuel : nat)
    : list (Task World) -> RunState World -> RunState World -> Prop :=
| all_succeed_nil st : all_succeed fuel [] st st
| all_succeed_cons t l v st st1 st2 :
    _run cyan tasks fuel t st = (Done (Success v), st1) ->
    all_succeed fuel l st1 st2 ->
    all_succeed fuel (t :: l) st st2.

(** [names_succeed fuel names st st']: every requested name of [names]
    resolves and every task it resolves to succeeds, from [st] to [st']. *)
Inductive names_succeed (fuel : nat)
    : list string -> RunState World -> RunState World -> Prop :=
| names_succeed_nil st : names_succeed fuel [] st st
| names_succeed_cons n names l st st1 st2 :
    resolve_task cyan tasks n None = inr l ->
    all_succeed fuel l st st1 ->
    names_succeed fuel names st1 st2 ->
    names_succeed fuel (n :: names) st st2.

(** A property of the state an engine function ends in, by the way it
    ends: [I] after it returns, [J (Some e)] after it throws [e],
    [J None] when the fuel is spent. *)
Definition post {A : Type} (I : RunState World -> Prop)
    (J : option Error -> RunState World -> Prop)
    (r : Outcome A * RunState World) : Prop :=
  match r with
  | (Done _, st) => I st
  | (Thrown e, st) => J (Some e) st
  | (OutOfFuel, st) => J None st
  end.

End Vocabulary.

Arguments registered {World} _ _.
Arguments resolved_dep {World} _ _ _ _.
Arguments on_cycle {World} _ _ _.
Arguments acyclic {World} _ _.
Arguments typed_registry {World} _.
Arguments printable_failures {World} _.
Arguments resolvable {World} _ _.
Arguments cycles_open {World} _ _ _.
Arguments all_succeed {World} _ _ _ _ _ _.
Arguments names_succeed {World} _ _ _ _ _ _.
Arguments reported {World} _ _.
Arguments waiting {World} _ _ _ _.

(* ================================================================== *)
(** ** Concrete registries *)

Module Examples.

(** The world is a counter that every action advances. *)
Definition plain (s : string) : string := s.

Definition bump (r : Returned) : Fn nat := fun w => (S w, Resolves r).
Definition boom : Fn nat := fun w => (S w, Rejects (OtherError "boom")).

Definition empty : list (string * Task nat) := [].

(** [T] depends on [a], then on the unregistered [ghost], then on [b]. *)
Definition ghost_registry : list (string * Task nat) :=
  task "T" (ADeps nat ["a"; "ghost"; "b"]) None
  (task "b" (AFn nat (bump (RetValue VUndefined))) None
  (task "a" (AFn nat (bump (RetValue VUndefined))) None empty)).

Definition task_T : Task nat := mkTask "T" ["a"; "ghost"; "b"] None.

(** The registry of the wildcard example, with two more tasks whose
    names have two colons. *)
Definition js_registry : list (string * Task nat) :=
  task "y:a:b" (ADeps nat []) None
  (task "x:a" (ADeps nat []) None
  (task "lint:js" (AFn nat (bump (RetValue VUndefined))) None
  (task "build:css" (AFn nat (bump (RetValue VUndefined))) None
  (task "build:js" (AFn nat (bump (RetValue VUndefined))) None empty)))).

(** An action that returns the bare number 42. *)
Definition task_bare : Task nat :=
  mkTask "bare" [] (Some (bump (RetValue (VNumber 42)))).

(** [top] depends on [bad] (whose action rejects), on every [*:js] task
    and on [b]; [left] and [right] both depend on [a]. *)
Definition build_registry : list (string * Task nat) :=
  task "both" (ADeps nat ["left"; "right"]) None
  (task "right" (ADeps nat ["a"]) (Some (bump (RetResult (Success (VNumber 2)))))
  (task "left" (ADeps nat ["a"]) (Some (bump (RetResult (Success (VNumber 1)))))
  (task "top" (ADeps nat ["bad"; "*:js"; "b"]) (Some (bump (RetValue VUndefined)))
  (task "lint:js" (AFn nat (bump (RetValue VUndefined))) None
  (task "bad" (ADeps nat ["a"]) (Some boom)
  (task "b" (ADeps nat ["a"]) (Some (bump (RetResult (Success (VNumber 3)))))
  (task "a" (AFn nat (bump (RetValue VUndefined))) None empty))))))).

(** A rank that goes down along the dependencies of [build_registry]. *)
Definition build_rank (t : Task nat) : nat :=
  if String.eqb (name t) "a" then 0
  else if String.eqb (name t) "top" then 2
  else if String.eqb (name t) "both" then 2
  else 1.

Definition task_top : Task nat :=
  mkTask "top" ["bad"; "*:js"; "b"] (Some (bump (RetValue VUndefined))).

Definition task_bad : Task nat := mkTask "bad" ["a"] (Some boom).

(** [T] depends on [A], whose action rejects, and on [B], which depends on
    the unregistered [ghost]. *)
Definition sibling_registry : list (string * Task nat) :=
  task "T" (ADeps nat ["A"; "B"]) None
  (task "B" (ADeps nat ["ghost"]) None
  (task "A" (AFn nat boom) None empty)).

Definition task_sibling : Task nat := mkTask "T" ["A"; "B"] None.

(** The one task [bare], whose action returns the bare number 42. *)
Definition bare_registry : list (string * Task nat) :=
  task "bare" (AFn nat (bump (RetValue (VNumber 42)))) None empty.

(** The one task [void], whose action rejects without a reason. *)
Definition void_registry : list (string * Task nat) :=
  task "void" (AFn nat (fun w => (S w, Rejects (Nullish false)))) None empty.

(** [cyc] depends on [a] and then on itself. *)
Definition cyclic_registry : list (string * Task nat) :=
  task "cyc" (ADeps nat ["a"; "cyc"]) None
  (task "a" (AFn nat (bump (RetValue VUndefined))) None empty).

Definition task_cyc : Task nat := mkTask "cyc" ["a"; "cyc"] None.

End Examples.

(* ================================================================== *)
(** ** Console output

    [log], [print] and the layout of [show_failure].  The time of day that
    [log] reads from the clock is an argument; [chalk.gray] and
    [chalk.red] are parameters.  [print] and [show_failure] are given by
    the messages they hand to [log], in order. *)

Definition newline : ascii := "010"%char.

Section Console.

Variable gray : string -> string.
Variable red : string -> string.

(** [log(message)]: the line written on the console at time [now]. *)
Definition log (now message : string) : string :=
  ("[" ++ gray now ++ "] " ++ message)%string.

(** [print(message)]: one call of [log] for each piece of
    [message.split("\n")]. *)
Definition print (message : string) : list string :=
  JsString.split_on newline message.

(** [show_failure(failure)]: for a [BuildError] one "failed:" line with
    the message; for any other error [print] of its text, which stands for
    [error.stack ?? error.toString()]; for [undefined] and [null] the
    [TypeError] of reading [stack], and no message. *)
Definition show_failure_messages (error : Error) : Outcome (list string) :=
  match error with
  | BuildError _ message => Done [(red "failed:" ++ " " ++ message)%string]
  | OtherError text => Done (print text)
  | Nullish is_null => Thrown (stack_type_error is_null)
  end.

(** The text an error carries; [undefined] and [null] carry none. *)
Definition error_text (error : Error) : string :=
  match error with
  | BuildError _ message => message
  | OtherError text => text
  | Nullish _ => EmptyString
  end.

End Console.

(* ================================================================== *)
(** ** More vocabulary *)

Section MoreVocabulary.

Context {World : Type}.
Variable cyan : string -> string.
Variable tasks : list (string * Task World).

(** One call of [task]. *)
Record Registration : Type := mkRegistration {
  reg_name : string;
  reg_deps : DepsOrFn World;
  reg_fn : option (Fn World)
}.

Definition register (r : Registration) (tasks : list (string * Task World))
    : list (string * Task World) :=
  task (reg_name r) (reg_deps r) (reg_fn r) tasks.

(** A sequence of calls of [task], the first of them on the empty
    registry. *)
Definition register_all (rs : list Registration) : list (string * Task World) :=
  fold_left (fun tasks r => register r tasks) rs [].

(** The task object that a registration creates. *)
Definition registration_task (r : Registration) : Task World :=
  match reg_deps r with
  | ADeps _ l => mkTask (reg_name r) l (reg_fn r)
  | AFn _ f => mkTask (reg_name r) [] (Some f)
  end.

(** What is known when the dependency loops of [t] have come back with the
    flag [failed] in the state [st]: every pattern resolved, every
    resolved dependency is another task and has a Result in the cache, and
    the flag is set exactly when one of these Results is a Failure. *)
Definition deps_done (t : Task World) (failed : bool) (st : RunState World) : Prop :=
  (forall n, In n (deps t) ->
     exists l, resolve_task cyan tasks n (Some t) = inr l) /\
  (forall d, resolved_dep cyan tasks t d ->
     name d <> name t /\
     exists rd, JsMap.get (name d) (finished st) = Some rd /\
                (is_Failure rd = true -> failed = true)) /\
  (failed = true ->
     exists d e, resolved_dep cyan tasks t d /\
                 JsMap.get (name d) (finished st) = Some (Failure e)).

(** [x] comes before [y] in [l]. *)
Definition before (x y : string) (l : list string) : Prop :=
  exists a b c, l = a ++ x :: b ++ y :: c.

(** The cache is closed under resolved dependencies, a task with a failed
    dependency has the failure that names it, and the cache holds
    registered tasks only. *)
Definition cache_closed (st : RunState World) : Prop :=
  (forall n r, JsMap.get n (finished st) = Some r ->
     exists t, registered tasks t /\ name t = n) /\
  (forall t d r,
     registered tasks t -> resolved_dep cyan tasks t d ->
     JsMap.get (name t) (finished st) = Some r ->
     exists rd, JsMap.get (name d) (finished st) = Some rd /\
                (is_Failure rd = true ->
                 r = Failure (BuildError (name t) (failed_message cyan t)))).

(** The action of a task is called after the actions of its resolved
    dependencies, and only when all of them have succeeded. *)
Definition calls_ordered (st : RunState World) : Prop :=
  forall t d,
    registered tasks t -> resolved_dep cyan tasks t d ->
    In (name t) (invocations (trace st)) ->
    (exists v, JsMap.get (name d) (finished st) = Some (Success v)) /\
    (In (name d) (invocations (trace st)) ->
     before (name d) (name t) (invocations (trace st))).

(** A cached task without an action has the Success of [undefined], or
    the failure that names it together with a failed dependency. *)
Definition groups_explained (st : RunState World) : Prop :=
  forall t r,
    registered tasks t -> fn t = None ->
    JsMap.get (name t) (finished st) = Some r ->
    r = Success VUndefined \/
    (r = Failure (BuildError (name t) (failed_message cyan t)) /\
     exists d e, resolved_dep cyan tasks t d /\
                 JsMap.get (name d) (finished st) = Some (Failure e)).

(** The three together. *)
Definition structured (st : RunState World) : Prop :=
  calls_ordered st /\ cache_closed st /\ groups_explained st.

(** The tag of every closing line is the tag of the cached Result. *)
Definition tags_agree (st : RunState World) : Prop :=
  forall n ok,
    In (LogAfter n ok) (trace st) ->
    exists r, JsMap.get n (finished st) = Some r /\ is_Success r = ok.

End MoreVocabulary.

Arguments mkRegistration {World} _ _ _.
Arguments reg_name {World} _.
Arguments reg_deps {World} _.
Arguments reg_fn {World} _.
Arguments register {World} _ _.
Arguments register_all {World} _.
Arguments registration_task {World} _.
Arguments deps_done {World} _ _ _ _ _.
Arguments cache_closed {World} _ _ _.
Arguments calls_ordered {World} _ _ _.
Arguments tags_agree {World} _.
Arguments groups_explained {World} _ _ _.
Arguments structured {World} _ _ _.

(* ================================================================== *)
(** * Properties *)

(** ** Strings *)

Module JsStringFacts.
Import JsString.

Lemma split_on_nonempty sep s : split_on sep s <> [].
Proof.
  destruct s as [|c s]; simpl; [discriminate|].
  destruct (Ascii.eqb c sep); [discriminate|].
  destruct (split_on sep s); discriminate.
Qed.

Lemma split_on_no_sep sep s :
  contains sep s = false -> split_on sep s = [s].
Proof.
  induction s as [|c s IH]; simpl; intros H; [reflexivity|].
  apply orb_false_iff in H as [Hc Hs].
  rewrite Hc, (IH Hs). reflexivity.
Qed.

Lemma split_on_app sep p s :
  contains sep p = false ->
  split_on sep (p ++ String sep s) = p :: split_on sep s.
Proof.
  induction p as [|c p IH]; simpl; intros H.
  - rewrite Ascii.eqb_refl. reflexivity.
  - apply orb_false_iff in H as [Hc Hp].
    rewrite Hc, (IH Hp). reflexivity.
Qed.

Lemma length_app (a b : string) :
  String.length (a ++ b) = String.length a + String.length b.
Proof. induction a; simpl; auto. Qed.

Lemma substring_app_r p x :
  substring (String.length p) (String.length x) (p ++ x) = x.
Proof.
  induction p as [|c p IH]; simpl.
  - induction x as [|d x IHx]; simpl; [reflexivity|]. now rewrite IHx.
  - exact IH.
Qed.

Lemma substring_split n s :
  n <= String.length s ->
  s = (substring 0 n s ++ substring n (String.length s - n) s)%string.
Proof.
  revert s; induction n as [|n IH]; intros s H.
  - simpl. rewrite Nat.sub_0_r.
    replace (substring 0 0 s) with EmptyString by (destruct s; reflexivity).
    simpl. clear H. induction s as [|c s IHs]; simpl; [reflexivity|].
    now rewrite <- IHs.
  - destruct s as [|c s]; simpl in *; [lia|].
    f_equal. apply IH. lia.
Qed.

(** [endsWith] is the suffix relation. *)
Lemma endsWith_spec s x :
  endsWith s x = true <-> exists p, s = (p ++ x)%string.
Proof.
  unfold endsWith. split.
  - destruct (Nat.leb_spec (String.length x) (String.length s)) as [Hle|];
      [|discriminate].
    intros H. apply String.eqb_eq in H.
    exists (substring 0 (String.length s - String.length x) s).
    pose proof (substring_split (String.length s - String.length x) s) as E.
    replace (String.length s - (String.length s - String.length x))
      with (String.length x) in E by lia.
    rewrite H in E. apply E. lia.
  - intros [p ->]. rewrite length_app.
    replace (Nat.leb (String.length x) (String.length p + String.length x))
      with true by (symmetry; apply Nat.leb_le; lia).
    replace (String.length p + String.length x - String.length x)
      with (String.length p) by lia.
    rewrite substring_app_r. apply String.eqb_refl.
Qed.

(** A name without a colon is one segment. *)
Lemma split_no_colon s :
  contains ":" s = false -> split ":" 2 s = [s].
Proof. intros H. unfold split. now rewrite split_on_no_sep. Qed.

(** With one colon, the two segments are the two sides. *)
Lemma split_one_colon p s :
  contains ":" p = false -> contains ":" s = false ->
  split ":" 2 (p ++ String ":" s) = [p; s].
Proof.
  intros Hp Hs. unfold split.
  rewrite split_on_app, split_on_no_sep by assumption. reflexivity.
Qed.

(** With two colons or more, the second segment stops at the second
    colon and the rest of the name is dropped. *)
Lemma split_two_colons p s1 s2 :
  contains ":" p = false -> contains ":" s1 = false ->
  split ":" 2 (p ++ String ":" (s1 ++ String ":" s2)) = [p; s1].
Proof.
  intros Hp Hs. unfold split.
  rewrite !split_on_app by assumption. reflexivity.
Qed.

End JsStringFacts.

(** ** Maps *)

Module JsMapFacts.
Import JsMap.

Section Facts.
Context {V : Type}.
Implicit Types (m : list (string * V)) (k : string) (v : V).

Lemma get_set_same k v m : get k (set k v m) = Some v.
Proof.
  induction m as [|[k' v'] m IH]; simpl.
  - now rewrite String.eqb_refl.
  - destruct (String.eqb k' k) eqn:E; simpl.
    + now rewrite String.eqb_refl.
    + now rewrite E.
Qed.

Lemma get_set_other k k' v m :
  k' <> k -> get k' (set k v m) = get k' m.
Proof.
  intros Hne. induction m as [|[k0 v0] m IH]; simpl.
  - destruct (String.eqb_spec k k'); congruence.
  - destruct (String.eqb_spec k0 k) as [->|Hk]; simpl.
    + destruct (String.eqb_spec k k'); congruence.
    + now rewrite IH.
Qed.

Lemma set_fresh k v m : get k m = None -> set k v m = m ++ [(k, v)].
Proof.
  induction m as [|[k0 v0] m IH]; simpl; [reflexivity|].
  destruct (String.eqb k0 k); [discriminate|].
  intros H. now rewrite IH.
Qed.

Lemma get_in_values k v m : get k m = Some v -> In v (values m).
Proof.
  induction m as [|[k0 v0] m IH]; simpl; [discriminate|].
  destruct (String.eqb k0 k).
  - intros [= ->]. now left.
  - intros H. right. now apply IH.
Qed.

Lemma get_none_keys k m : get k m = None <-> ~ In k (keys m).
Proof.
  induction m as [|[k0 v0] m IH]; simpl.
  - tauto.
  - destruct (String.eqb_spec k0 k) as [->|Hk].
    + split; [discriminate|]. intros H. exfalso. apply H. now left.
    + rewrite IH. unfold keys. simpl. tauto.
Qed.

Lemma keys_set_fresh k v m :
  get k m = None -> keys (set k v m) = keys m ++ [k].
Proof.
  intros H. rewrite set_fresh by assumption.
  unfold keys. now rewrite map_app.
Qed.

Lemma keys_set_present k v m :
  get k m <> None -> keys (set k v m) = keys m.
Proof.
  induction m as [|[k0 v0] m IH]; simpl; [congruence|].
  destruct (String.eqb_spec k0 k) as [->|Hk]; simpl.
  - reflexivity.
  - intros H. unfold keys in *. simpl. now rewrite IH.
Qed.

Lemma keys_set_nodup k v m : NoDup (keys m) -> NoDup (keys (set k v m)).
Proof.
  intros H. destruct (get k m) eqn:E.
  - rewrite keys_set_present; [assumption|congruence].
  - rewrite keys_set_fresh by assumption.
    apply NoDup_app; [assumption|repeat constructor; intros []|].
    intros x Hx [<-|[]]. now apply get_none_keys in E.
Qed.

Lemma in_set k v m kv :
  In kv (set k v m) -> kv = (k, v) \/ In kv m.
Proof.
  induction m as [|[k0 v0] m IH]; simpl.
  - intros [<-|[]]. now left.
  - destruct (String.eqb k0 k); simpl.
    + intros [<-|H]; auto.
    + intros [<-|H]; auto. destruct (IH H); auto.
Qed.

(** With distinct keys, a value is found under the key it sits at. *)
Lemma in_get k v m : NoDup (keys m) -> In (k, v) m -> get k m = Some v.
Proof.
  induction m as [|[k0 v0] m IH]; simpl; [tauto|].
  unfold keys. simpl. intros Hnd [[= -> ->]|Hin].
  - now rewrite String.eqb_refl.
  - inversion Hnd as [|? ? Hnot Hnd']; subst.
    destruct (String.eqb_spec k0 k) as [->|Hk].
    + exfalso. apply Hnot. change k with (fst (k, v)). now apply in_map.
    + now apply IH.
Qed.
End Facts.

End JsMapFacts.

(** ** Registry and resolver *)

Section RegistryFacts.

Context {World : Type}.
Variable cyan : string -> string.
Implicit Types (tasks : list (string * Task World)) (t : Task World).

Lemma registry_ok_empty : registry_ok (@nil (string * Task World)).
Proof. split; constructor. Qed.

(** Registration keeps the registry a map from names to tasks of that
    name. *)
Lemma task_registry_ok n d f tasks :
  registry_ok tasks -> registry_ok (task n d f tasks).
Proof.
  intros [Hnd Hall]. unfold task.
  destruct d as [l|g]; (split; [now apply JsMapFacts.keys_set_nodup|]);
    apply Forall_forall; intros kv Hin;
    apply JsMapFacts.in_set in Hin as [->|Hin]; try reflexivity;
    now apply (proj1 (Forall_forall _ _) Hall).
Qed.

Lemma registered_get tasks t :
  registry_ok tasks -> registered tasks t ->
  JsMap.get (name t) tasks = Some t.
Proof.
  intros [Hnd Hall] Hin. unfold registered, JsMap.values in Hin.
  apply in_map_iff in Hin as [[k v] [Hv Hin]]. simpl in Hv. subst v.
  pose proof (proj1 (Forall_forall _ _) Hall _ Hin) as Hk. simpl in Hk.
  subst k. now apply JsMapFacts.in_get.
Qed.

(** One name, one task object. *)
Lemma registered_name_inj tasks a b :
  registry_ok tasks -> registered tasks a -> registered tasks b ->
  name a = name b -> a = b.
Proof.
  intros Hok Ha Hb E.
  pose proof (registered_get _ _ Hok Ha) as Ga.
  pose proof (registered_get _ _ Hok Hb) as Gb.
  rewrite E in Ga. congruence.
Qed.

Variable tasks : list (string * Task World).

Lemma resolve_task_in n parent l :
  resolve_task cyan tasks n parent = inr l ->
  forall x, In x l -> registered tasks x.
Proof.
  unfold resolve_task. destruct (split_name n) as [prefix suffix].
  destruct (opt_is prefix "*").
  - intros [= <-] x Hx. apply filter_In in Hx. apply Hx.
  - unfold JsMap.has. destruct (JsMap.get n tasks) as [t|] eqn:G; [|discriminate].
    intros [= <-] x [<-|[]]. eapply JsMapFacts.get_in_values, G.
Qed.

(** The requester matters to the error message only. *)
Lemma resolve_task_parent n p p' l :
  resolve_task cyan tasks n p = inr l -> resolve_task cyan tasks n p' = inr l.
Proof.
  unfold resolve_task. destruct (split_name n) as [prefix suffix].
  destruct (opt_is prefix "*"); [auto|].
  destruct (JsMap.has n tasks); [auto|discriminate].
Qed.

Lemma resolve_task_wildcard n parent suffix :
  split_name n = (Some "*", suffix) ->
  resolve_task cyan tasks n parent =
    inr (filter (fun task =>
                   JsString.endsWith (name task) (":" ++ JsString.template suffix))
                (JsMap.values tasks)).
Proof. unfold resolve_task. now intros ->. Qed.

Lemma resolve_task_unknown n parent :
  opt_is (fst (split_name n)) "*" = false ->
  JsMap.has n tasks = false ->
  resolve_task cyan tasks n parent = inl (unknown_task cyan n parent).
Proof.
  unfold resolve_task. destruct (split_name n) as [prefix suffix]. simpl.
  now intros -> ->.
Qed.

Lemma split_name_star s :
  JsString.contains ":" s = false ->
  split_name ("*:" ++ s) = (Some "*", Some s).
Proof.
  intros H. unfold split_name.
  change ("*:" ++ s)%string with ("*" ++ String ":" s)%string.
  rewrite JsStringFacts.split_one_colon by (assumption || reflexivity).
  reflexivity.
Qed.

End RegistryFacts.

(** ** Loop rules

    The four loops of [_run] and [run] keep an invariant [I] of the state
    when the recursive call keeps it; [J] is what is known when the loop is
    left by an exception or for lack of fuel; [Q] is learnt about every
    task the call returned for. *)

Section LoopRules.

Context {World : Type}.
Variable cyan : string -> string.
Variable tasks : list (string * Task World).
Variable exec : Task World -> RunState World -> Outcome Result * RunState World.
Variable I : RunState World -> Prop.
Variable J : option Error -> RunState World -> Prop.
Variable Q : Task World -> Prop.

Lemma for_deps_post l :
  (forall x st, In x l -> I st -> post (fun s => I s /\ Q x) J (exec x st)) ->
  forall failed st, I st ->
    post (fun s => I s /\ Forall Q l) J (for_deps exec l failed st).
Proof.
  induction l as [|x l IH]; intros Hx failed st HI; simpl.
  - auto.
  - pose proof (Hx x st (or_introl eq_refl) HI) as Hp.
    destruct (exec x st) as [[r|e|] st1]; simpl in Hp; try exact Hp.
    destruct Hp as [HI1 HQ].
    assert (Hrest : forall y s, In y l -> I s ->
              post (fun s' => I s' /\ Q y) J (exec y s))
      by (intros; apply Hx; simpl; auto).
    specialize (IH Hrest (if is_Failure r then true else failed) st1 HI1).
    destruct (for_deps exec l _ st1) as [[b|e|] st2]; simpl in *; try exact IH.
    destruct IH; auto.
Qed.

Hypothesis throw_ok : forall e st, I st -> J (Some e) st.

Lemma for_names_post t names :
  (forall n l x st,
      In n names -> resolve_task cyan tasks n (Some t) = inr l -> In x l ->
      I st -> post (fun s => I s /\ Q x) J (exec x st)) ->
  forall failed st, I st ->
    post (fun s => I s /\
                   forall n l x, In n names ->
                     resolve_task cyan tasks n (Some t) = inr l -> In x l -> Q x)
         J (for_names cyan tasks exec t names failed st).
Proof.
  induction names as [|n names IH]; intros Hx failed st HI; simpl.
  - split; [assumption|]. intros ? ? ? [].
  - destruct (resolve_task cyan tasks n (Some t)) as [e|l] eqn:R.
    + simpl. auto.
    + pose proof (for_deps_post l (fun x s Hin => Hx n l x s (or_introl eq_refl) R Hin)
                    failed st HI) as Hp.
      destruct (for_deps exec l failed st) as [[b|e|] st1]; simpl in Hp; try exact Hp.
      destruct Hp as [HI1 HQ].
      assert (Hrest : forall n' l' x s, In n' names ->
                resolve_task cyan tasks n' (Some t) = inr l' -> In x l' ->
                I s -> post (fun s' => I s' /\ Q x) J (exec x s))
        by (intros; eapply Hx; simpl; eauto).
      specialize (IH Hrest b st1 HI1).
      destruct (for_names cyan tasks exec t names b st1) as [[b'|e|] st2];
        simpl in *; try exact IH.
      destruct IH as [HI2 HQ2]. split; [assumption|].
      intros n' l' x [<-|Hin] R' Hx'.
      * rewrite R in R'. injection R' as <-.
        now apply (proj1 (Forall_forall _ _) HQ).
      * eauto.
Qed.

Lemma top_tasks_post l :
  (forall x st, In x l -> I st -> post (fun s => I s /\ Q x) J (exec x st)) ->
  forall st, I st -> post I J (top_tasks exec l st).
Proof.
  induction l as [|x l IH]; intros Hx st HI; simpl.
  - auto.
  - pose proof (Hx x st (or_introl eq_refl) HI) as Hp.
    destruct (exec x st) as [[r|e|] st1]; simpl in Hp; try exact Hp.
    destruct Hp as [HI1 HQ].
    destruct (is_Failure r); [exact HI1|].
    apply IH; [|assumption]. intros; apply Hx; simpl; auto.
Qed.

Lemma top_names_post names :
  (forall n l x st,
      In n names -> resolve_task cyan tasks n None = inr l -> In x l ->
      I st -> post (fun s => I s /\ Q x) J (exec x st)) ->
  forall st, I st -> post I J (top_names cyan tasks exec names st).
Proof.
  induction names as [|n names IH]; intros Hx st HI; simpl.
  - auto.
  - destruct (resolve_task cyan tasks n None) as [e|l] eqn:R.
    + simpl. auto.
    + pose proof (top_tasks_post l (fun x s Hin => Hx n l x s (or_introl eq_refl) R Hin)
                    st HI) as Hp.
      destruct (top_tasks exec l st) as [[[r|]|e|] st1]; simpl in Hp; try exact Hp.
      apply IH; [|assumption]. intros; eapply Hx; simpl; eauto.
Qed.

End LoopRules.

(** ** Traces *)

Section TraceFacts.

Lemma invocations_app a b : invocations (a ++ b) = invocations a ++ invocations b.
Proof. induction a as [|[] a IH]; simpl; congruence. Qed.

Lemma starts_app a b : starts (a ++ b) = starts a ++ starts b.
Proof. induction a as [|[] a IH]; simpl; congruence. Qed.

Lemma finishes_app a b : finishes (a ++ b) = finishes a ++ finishes b.
Proof. induction a as [|[] a IH]; simpl; congruence. Qed.

Lemma shown_app a b : shown (a ++ b) = shown a ++ shown b.
Proof. induction a as [|[] a IH]; simpl; congruence. Qed.

Lemma failures_app a b : failures (a ++ b) = failures a ++ failures b.
Proof. induction a as [|[k []] a IH]; simpl; congruence. Qed.

End TraceFacts.

(** ** The executor and the end of [_run] *)

Section RunFacts.

Context {World : Type}.
Variable cyan : string -> string.
Variable tasks : list (string * Task World).
Implicit Types (t d : Task World) (st : RunState World).

Lemma exec_task_finished t st :
  finished (snd (exec_task t st)) = finished st.
Proof.
  unfold exec_task. destruct (fn t) as [f|]; [|reflexivity].
  simpl. destruct (f (world st)) as [w [[v|r]|e]]; simpl; try reflexivity.
  destruct v; reflexivity.
Qed.

Lemma exec_task_fuel t st : fst (exec_task t st) <> OutOfFuel.
Proof.
  unfold exec_task. destruct (fn t) as [f|]; [|discriminate].
  simpl. destruct (f (world st)) as [w [[v|r]|e]]; simpl; try discriminate.
  destruct v; discriminate.
Qed.

(** The executor calls the action of a task that has one, once. *)
Lemma exec_task_invocations t st :
  invocations (trace (snd (exec_task t st))) =
    invocations (trace st) ++
    match fn t with Some _ => [name t] | None => [] end.
Proof.
  unfold exec_task. destruct (fn t) as [f|]; simpl.
  - destruct (f (world st)) as [w [[v|r]|e]]; simpl;
      try destruct v; simpl; rewrite ?invocations_app; simpl;
      rewrite ?invocations_app; simpl; rewrite ?app_nil_r, <- ?app_assoc; reflexivity.
  - rewrite invocations_app. simpl. now rewrite app_nil_r.
Qed.

(** What [conclude] does to the cache: one [set] when it returns; when
    it throws, nothing (the executor threw) or the [set] of a Failure that
    [show_failure] cannot read; and it never runs out of fuel. *)
Lemma conclude_finished t failed st :
  match conclude cyan t failed st with
  | (Done r, st') => finished st' = JsMap.set (name t) r (finished st)
  | (Thrown _, st') =>
      finished st' = finished st \/
      exists is_null,
        finished st' =
          JsMap.set (name t) (Failure (Nullish is_null)) (finished st)
  | (OutOfFuel, _) => False
  end.
Proof.
  unfold conclude. destruct failed; simpl; [reflexivity|].
  pose proof (exec_task_finished t st) as Hf.
  pose proof (exec_task_fuel t st) as Hn.
  destruct (exec_task t st) as [[r|e|] st1]; simpl in *; [|now left|congruence].
  destruct r as [v|[c m|text|b]]; simpl; try congruence.
  right. exists b. congruence.
Qed.

(** [conclude] leaves the entries of the other tasks alone. *)
Lemma conclude_get_other t failed st n :
  n <> name t ->
  JsMap.get n (finished (snd (conclude cyan t failed st))) =
  JsMap.get n (finished st).
Proof.
  intros Hne. pose proof (conclude_finished t failed st) as Hc.
  destruct (conclude cyan t failed st) as [[r|e|] st1]; simpl in *;
    [|destruct Hc as [Hc|[b Hc]]|contradiction]; rewrite Hc;
    try reflexivity; now apply JsMapFacts.get_set_other.
Qed.

Lemma conclude_invocations t failed st :
  invocations (trace (snd (conclude cyan t failed st))) =
    invocations (trace st) ++
    (if failed then [] else match fn t with Some _ => [name t] | None => [] end).
Proof.
  unfold conclude. destruct failed; simpl.
  - rewrite invocations_app. reflexivity.
  - pose proof (exec_task_invocations t st) as Hi.
    destruct (exec_task t st) as [[r|e|] st1]; simpl in *; try assumption.
    destruct r as [v|[c m|text|b]]; simpl; try assumption;
      rewrite invocations_app; simpl; now rewrite app_nil_r.
Qed.

Lemma conclude_failed t st :
  conclude cyan t true st =
    (Done (Failure (BuildError (name t) (failed_message cyan t))),
     emit (ShowFailure (BuildError (name t) (failed_message cyan t)))
       (finished_set (name t)
          (Failure (BuildError (name t) (failed_message cyan t))) st)).
Proof. reflexivity. Qed.

(** ** Unfolding [_run] *)

Lemma run_zero t st : _run cyan tasks 0 t st = (OutOfFuel, st).
Proof. reflexivity. Qed.

(** A cache hit returns the stored result and leaves the state as it is. *)
Lemma run_cached fuel t st r :
  JsMap.get (name t) (finished st) = Some r ->
  _run cyan tasks (S fuel) t st = (Done r, st).
Proof. intros H. simpl. now rewrite H. Qed.

Lemma run_fresh fuel t st :
  JsMap.get (name t) (finished st) = None ->
  _run cyan tasks (S fuel) t st =
    match for_names cyan tasks (_run cyan tasks fuel) t (deps t) false st with
    | (Done failed, st1) => conclude cyan t failed st1
    | (Thrown e, st1) => (Thrown e, st1)
    | (OutOfFuel, st1) => (OutOfFuel, st1)
    end.
Proof. intros H. simpl. now rewrite H. Qed.

(** ** No re-entry

    While the dependencies of [d] are being run, [d] and the tasks that
    wait for it have no cache entry; if one of them is asked for again,
    the recursion cannot come back.  [A] is the set of waiting tasks:
    each has a resolved dependency that is waiting too or is [d]. *)

Hypothesis tasks_ok : registry_ok tasks.

Lemma no_reentry fuel :
  forall d A st,
    registered tasks d -> waiting cyan tasks A d -> unfinished A st ->
    post (fun s => ~ A d /\ unfinished A s) (fun _ s => unfinished A s)
         (_run cyan tasks fuel d st).
Proof.
  induction fuel as [|fuel IH]; intros d A st Hd HA Hst; [exact Hst|].
  destruct (JsMap.get (name d) (finished st)) as [r|] eqn:G.
  - rewrite (run_cached _ _ _ _ G). simpl. split; [|assumption].
    intros Ad. rewrite (Hst _ Ad) in G. discriminate.
  - rewrite (run_fresh _ _ _ G).
    set (A' := fun x => x = d \/ A x).
    assert (Hst' : unfinished A' st) by (intros a [->|Aa]; auto).
    assert (Hsub : forall s, unfinished A' s -> unfinished A s)
      by (intros s Hs a Aa; apply Hs; now right).
    pose proof (for_names_post cyan tasks (_run cyan tasks fuel)
                  (unfinished A') (fun _ s => unfinished A' s) (fun x => ~ A' x)
                  (fun _ _ H => H) d (deps d)) as Hloop.
    lapply Hloop; [clear Hloop; intros Hloop|].
    2:{ intros n l x s Hn R Hx Hs.
        assert (Hpost := IH x A' s (resolve_task_in cyan tasks _ _ _ R x Hx)).
        lapply Hpost; [clear Hpost; intros Hpost|].
        2:{ intros a [->|Aa].
            - split; [assumption|]. exists x. split; [|now right].
              exists n, l. auto.
            - destruct (HA a Aa) as [Ra [y [Hy Hor]]]. split; [assumption|].
              exists y. split; [assumption|]. left. unfold A'. tauto. }
        specialize (Hpost Hs).
        destruct (_run cyan tasks fuel x s) as [[r|e|] s']; simpl in *; tauto. }
    specialize (Hloop false st Hst').
    destruct (for_names cyan tasks (_run cyan tasks fuel) d (deps d) false st)
      as [[failed|e|] st1]; simpl in Hloop; [|now apply Hsub|now apply Hsub].
    destruct Hloop as [Hst1 Hdeps].
    assert (Hnot : ~ A d).
    { intros Ad. destruct (HA d Ad) as [_ [y [[n [l [Hn [R Hy]]]] Hor]]].
      apply (Hdeps n l y Hn R Hy). unfold A'. tauto. }
    assert (Hkeep : unfinished A (snd (conclude cyan d failed st1))).
    { intros a Aa. rewrite conclude_get_other; [apply Hst1; now right|].
      intros E. apply Hnot.
      rewrite <- (registered_name_inj tasks a d tasks_ok (proj1 (HA a Aa)) Hd E).
      assumption. }
    pose proof (conclude_finished d failed st1) as Hc.
    destruct (conclude cyan d failed st1) as [[r|e|] st2]; simpl in *;
      [split; assumption|assumption|contradiction].
Qed.

End RunFacts.

(** ** Invariants of a run *)

Section Invariants.

Context {World : Type}.
Variable cyan : string -> string.
Variable tasks : list (string * Task World).
Hypothesis tasks_ok : registry_ok tasks.
Implicit Types (t d : Task World) (st : RunState World).

Lemma post_and {A} (I1 I2 : RunState World -> Prop) J1 J2
    (r : Outcome A * RunState World) :
  post I1 J1 r -> post I2 J2 r ->
  post (fun s => I1 s /\ I2 s) (fun e s => J1 e s /\ J2 e s) r.
Proof. destruct r as [[a|e|] s]; simpl; auto. Qed.

Lemma post_weaken {A} (I1 I2 : RunState World -> Prop)
    (J1 J2 : option Error -> RunState World -> Prop)
    (r : Outcome A * RunState World) :
  (forall s, I1 s -> I2 s) -> (forall e s, J1 e s -> J2 e s) ->
  post I1 J1 r -> post I2 J2 r.
Proof. destruct r as [[a|e|] s]; simpl; auto. Qed.

(** While the dependencies of [t] run, [t] gets no cache entry, and none
    of them is [t]. *)
Lemma deps_loop_fresh fuel t failed st :
  registered tasks t ->
  JsMap.get (name t) (finished st) = None ->
  post (fun s => JsMap.get (name t) (finished s) = None /\
                 forall x, resolved_dep cyan tasks t x -> x <> t)
       (fun _ _ => True)
       (for_names cyan tasks (_run cyan tasks fuel) t (deps t) failed st).
Proof.
  intros Ht G.
  pose proof (for_names_post cyan tasks (_run cyan tasks fuel)
                (unfinished (eq t)) (fun _ _ => True) (fun x => t <> x)
                (fun _ _ _ => I) t (deps t)) as Hloop.
  lapply Hloop; [clear Hloop; intros Hloop|].
  - assert (H0 : unfinished (eq t) st) by (intros a <-; exact G).
    specialize (Hloop failed st H0).
    eapply post_weaken; [| |exact Hloop]; simpl; [|auto].
    intros s [Hs Hq]. split; [now apply Hs|].
    intros x [n [l [Hn [R Hx]]]] ->. now apply (Hq n l t Hn R Hx).
  - intros n l x s Hn R Hx Hs.
    eapply post_weaken;
      [| |apply (no_reentry cyan tasks tasks_ok fuel x (eq t) s)];
      simpl; [tauto|auto|eapply resolve_task_in; eauto| |assumption].
    intros a <-. split; [assumption|]. exists x. split; [|now right].
    exists n, l. auto.
Qed.

(** The rule for [_run]: an invariant [I] that the end of [_run] keeps,
    for a task without a cache entry, is kept by [_run]. *)
Section RunRule.
Variable I : RunState World -> Prop.
Variable J : option Error -> RunState World -> Prop.
Hypothesis throw_ok : forall e st, I st -> J (Some e) st.
Hypothesis fuel_ok : forall st, I st -> J None st.
Hypothesis conclude_ok :
  forall t failed st,
    registered tasks t -> I st ->
    JsMap.get (name t) (finished st) = None ->
    post I J (conclude cyan t failed st).

Lemma run_rule fuel :
  forall t st, registered tasks t -> I st ->
    post I J (_run cyan tasks fuel t st).
Proof.
  induction fuel as [|fuel IH]; intros t st Ht HI; [now apply fuel_ok|].
  destruct (JsMap.get (name t) (finished st)) as [r|] eqn:G.
  - now rewrite (run_cached _ _ _ _ _ _ G).
  - rewrite (run_fresh _ _ _ _ _ G).
    pose proof (deps_loop_fresh fuel t false st Ht G) as Hfresh.
    pose proof (for_names_post cyan tasks (_run cyan tasks fuel)
                  I J (fun _ => True) throw_ok t (deps t)) as Hloop.
    lapply Hloop; [clear Hloop; intros Hloop|].
    2:{ intros n l x s Hn R Hx Hs.
        eapply post_weaken; [| |apply (IH x s)]; simpl; auto.
        eapply resolve_task_in; eauto. }
    specialize (Hloop false st HI).
    destruct (for_names cyan tasks (_run cyan tasks fuel) t (deps t) false st)
      as [[failed|e|] st1]; simpl in *; try assumption.
    apply conclude_ok; tauto.
Qed.

Lemma run_from_rule fuel names st :
  I st -> post I J (run_from cyan tasks fuel names st).
Proof.
  intros HI. unfold run_from.
  apply (top_names_post cyan tasks (_run cyan tasks fuel) I J (fun _ => True));
    [assumption| |assumption].
  intros n l x s Hn R Hx Hs.
  eapply post_weaken; [| |apply (run_rule fuel x s)]; simpl; auto.
  eapply resolve_task_in; eauto.
Qed.
End RunRule.

(** *** Cache entries stay *)

Lemma extends_refl st : extends st st.
Proof. intros n r H. exact H. Qed.

Lemma extends_trans st1 st2 st3 :
  extends st1 st2 -> extends st2 st3 -> extends st1 st3.
Proof. intros H1 H2 n r H. auto. Qed.

Lemma conclude_extends st0 t failed st :
  extends st0 st -> JsMap.get (name t) (finished st) = None ->
  post (extends st0) (fun _ => extends st0) (conclude cyan t failed st).
Proof.
  intros He G.
  assert (Hext : extends st0 (snd (conclude cyan t failed st))).
  { intros n r0 H. rewrite conclude_get_other; [auto|].
    intros ->. rewrite (He _ _ H) in G. discriminate. }
  pose proof (conclude_finished cyan t failed st) as Hc.
  destruct (conclude cyan t failed st) as [[r|e|] st1]; simpl in *;
    [assumption|assumption|contradiction].
Qed.

Lemma run_extends fuel t st :
  registered tasks t ->
  extends st (snd (_run cyan tasks fuel t st)).
Proof.
  intros Ht.
  pose proof (run_rule (extends st) (fun _ => extends st)
                (fun _ _ H => H) (fun _ H => H)
                (fun t' failed s _ He G => conclude_extends st t' failed s He G)
                fuel t st Ht (extends_refl st)) as H.
  destruct (_run cyan tasks fuel t st) as [[r|e|] st1]; exact H.
Qed.

Lemma run_from_extends fuel names st :
  extends st (snd (run_from cyan tasks fuel names st)).
Proof.
  pose proof (run_from_rule (extends st) (fun _ => extends st)
                (fun _ _ H => H) (fun _ H => H)
                (fun t' failed s _ He G => conclude_extends st t' failed s He G)
                fuel names st (extends_refl st)) as H.
  destruct (run_from cyan tasks fuel names st) as [[r|e|] st1]; exact H.
Qed.

(** *** A returned result is the stored one *)

Lemma run_stored fuel t st r st' :
  _run cyan tasks fuel t st = (Done r, st') ->
  JsMap.get (name t) (finished st') = Some r.
Proof.
  destruct fuel as [|fuel]; [discriminate|].
  destruct (JsMap.get (name t) (finished st)) as [r0|] eqn:G.
  - rewrite (run_cached _ _ _ _ _ _ G). now intros [= <- <-].
  - rewrite (run_fresh _ _ _ _ _ G).
    destruct (for_names cyan tasks (_run cyan tasks fuel) t (deps t) false st)
      as [[failed|e|] st1]; try discriminate.
    pose proof (conclude_finished cyan t failed st1) as Hc.
    destruct (conclude cyan t failed st1) as [[r1|e|] st2]; try discriminate.
    intros [= <- <-]. rewrite Hc. apply JsMapFacts.get_set_same.
Qed.

(** *** At most one call per action *)

Lemma conclude_consistent t failed st :
  consistent st -> JsMap.get (name t) (finished st) = None ->
  post consistent (fun _ s => NoDup (invocations (trace s)))
       (conclude cyan t failed st).
Proof.
  intros [Hnd Hin] G.
  assert (Hnew : ~ In (name t) (invocations (trace st)))
    by (intros H; now apply (Hin _ H)).
  pose proof (conclude_finished cyan t failed st) as Hc.
  pose proof (conclude_invocations cyan t failed st) as Hi.
  assert (Hnd' : NoDup (invocations (trace (snd (conclude cyan t failed st))))).
  { rewrite Hi. destruct failed; [now rewrite app_nil_r|].
    destruct (fn t); [|now rewrite app_nil_r].
    apply NoDup_app; [assumption|repeat constructor; intros []|].
    intros x Hx [<-|[]]. contradiction. }
  destruct (conclude cyan t failed st) as [[r|e|] st1]; simpl in *;
    [|assumption|contradiction].
  split; [assumption|]. intros n Hn. rewrite Hc. rewrite Hi in Hn.
  destruct (String.eqb_spec n (name t)) as [->|Hne].
  - rewrite JsMapFacts.get_set_same. discriminate.
  - rewrite JsMapFacts.get_set_other by assumption. apply Hin.
    apply in_app_or in Hn as [Hn|Hn]; [assumption|].
    destruct failed; [destruct Hn|]. destruct (fn t); [|destruct Hn].
    destruct Hn as [<-|[]]. congruence.
Qed.

Lemma run_consistent fuel t st :
  registered tasks t -> consistent st ->
  post consistent (fun _ s => NoDup (invocations (trace s)))
       (_run cyan tasks fuel t st).
Proof.
  apply (run_rule consistent (fun _ s => NoDup (invocations (trace s))));
    [intros e s [H _]; exact H | intros s [H _]; exact H |].
  intros t' failed s _ Hc G. now apply conclude_consistent.
Qed.

Lemma run_from_consistent fuel names st :
  consistent st ->
  post consistent (fun _ s => NoDup (invocations (trace s)))
       (run_from cyan tasks fuel names st).
Proof.
  apply (run_from_rule consistent (fun _ s => NoDup (invocations (trace s))));
    [intros e s [H _]; exact H | intros s [H _]; exact H |].
  intros t' failed s _ Hc G. now apply conclude_consistent.
Qed.

Lemma consistent_init w : consistent (init w : RunState World).
Proof. split; [constructor|intros n []]. Qed.

End Invariants.

(** ** Cycles *)

Section Cycles.

Context {World : Type}.
Variable cyan : string -> string.
Variable tasks : list (string * Task World).
Hypothesis tasks_ok : registry_ok tasks.
Implicit Types (t d : Task World) (st : RunState World).

Let reach := clos_trans (Task World) (resolved_dep cyan tasks).

Lemma resolved_dep_registered t x :
  resolved_dep cyan tasks t x -> registered tasks x.
Proof. intros [n [l [_ [R Hx]]]]. eapply resolve_task_in; eauto. Qed.

(** A task on a cycle never returns from [_run] while the tasks on cycles
    have no cache entry. *)
Lemma on_cycle_never_returns fuel t st :
  registered tasks t -> on_cycle cyan tasks t -> cycles_open cyan tasks st ->
  post (fun _ => False)
       (fun _ s => JsMap.get (name t) (finished s) = None)
       (_run cyan tasks fuel t st).
Proof.
  intros Ht Hc Hopen.
  set (A := fun x => registered tasks x /\ reach x t /\ reach t x).
  pose proof (no_reentry cyan tasks tasks_ok fuel t A st Ht) as H.
  lapply H; [clear H; intros H|].
  2:{ intros a (Ra & Hat & Hta). split; [assumption|].
      apply clos_trans_t1n in Hat.
      destruct Hat as [y Hy|y z Hy Hyz].
      - exists y. auto.
      - exists y. split; [assumption|]. left.
        split; [now apply resolved_dep_registered in Hy|].
        split; [now apply clos_t1n_trans|].
        eapply t_trans; [exact Hta|now apply t_step]. }
  lapply H; [clear H; intros H|].
  2:{ intros a (Ra & Hat & Hta). apply Hopen; [assumption|].
      eapply t_trans; eassumption. }
  assert (At : A t) by (unfold A; auto).
  eapply post_weaken; [| |exact H]; simpl.
  - intros s [Hn _]. now apply Hn.
  - intros _ s Hs. now apply Hs.
Qed.

(** No task on a cycle ever gets a cache entry. *)
Lemma run_cycles_open fuel :
  forall t st, registered tasks t -> cycles_open cyan tasks st ->
    post (cycles_open cyan tasks) (fun _ => cycles_open cyan tasks)
         (_run cyan tasks fuel t st).
Proof.
  induction fuel as [|fuel IH]; intros t st Ht Hopen; [exact Hopen|].
  pose proof (on_cycle_never_returns (S fuel) t st Ht) as Hnever.
  destruct (JsMap.get (name t) (finished st)) as [r|] eqn:G.
  - now rewrite (run_cached _ _ _ _ _ _ G).
  - rewrite (run_fresh _ _ _ _ _ G) in *.
    pose proof (for_names_post cyan tasks (_run cyan tasks fuel)
                  (cycles_open cyan tasks) (fun _ => cycles_open cyan tasks)
                  (fun _ => True) (fun _ _ H => H) t (deps t)) as Hloop.
    lapply Hloop; [clear Hloop; intros Hloop|].
    2:{ intros n l x s Hn R Hx Hs.
        eapply post_weaken; [| |apply (IH x s)]; simpl; auto.
        eapply resolve_task_in; eauto. }
    specialize (Hloop false st Hopen).
    destruct (for_names cyan tasks (_run cyan tasks fuel) t (deps t) false st)
      as [[failed|e|] st1]; simpl in *; try tauto.
    destruct Hloop as [Hopen1 _].
    pose proof (conclude_finished cyan t failed st1) as Hc.
    assert (Hother : forall a,
               registered tasks a -> on_cycle cyan tasks a ->
               name a <> name t ->
               JsMap.get (name a) (finished (snd (conclude cyan t failed st1))) = None).
    { intros a Ra Ca Hne. rewrite conclude_get_other by assumption.
      now apply Hopen1. }
    destruct (conclude cyan t failed st1) as [[r|e|] st2]; simpl in *;
      [| |contradiction]; intros a Ra Ca;
      (destruct (String.eqb_spec (name a) (name t)) as [E|Hne];
       [apply (registered_name_inj tasks a t tasks_ok Ra Ht) in E; subst a|
        now apply Hother]).
    + exfalso. now apply Hnever.
    + now apply Hnever.
Qed.

Lemma run_from_cycles_open fuel names st :
  cycles_open cyan tasks st ->
  post (cycles_open cyan tasks) (fun _ => cycles_open cyan tasks)
       (run_from cyan tasks fuel names st).
Proof.
  intros Hopen. unfold run_from.
  apply (top_names_post cyan tasks (_run cyan tasks fuel)
           (cycles_open cyan tasks) (fun _ => cycles_open cyan tasks)
           (fun _ => True)); [auto| |assumption].
  intros n l x s Hn R Hx Hs.
  eapply post_weaken; [| |apply (run_cycles_open fuel x s)]; simpl; auto.
  eapply resolve_task_in; eauto.
Qed.

Lemma cycles_open_init w : cycles_open cyan tasks (init w).
Proof. intros t _ _. reflexivity. Qed.

End Cycles.

(** ** What the reporter sees *)

Section Reporting.

Context {World : Type}.
Variable cyan : string -> string.
Variable tasks : list (string * Task World).
Hypothesis tasks_ok : registry_ok tasks.
Hypothesis tasks_typed : typed_registry tasks.
Hypothesis tasks_printable : printable_failures tasks.
Implicit Types (t d : Task World) (st : RunState World).

Lemma plain_finishes_app a b :
  plain_finishes (a ++ b) = plain_finishes a ++ plain_finishes b.
Proof. induction a as [|[] a IH]; simpl; congruence. Qed.

Lemma failures_set_fresh n r (m : list (string * Result)) :
  JsMap.get n m = None ->
  failures (JsMap.set n r m) =
    failures m ++ match r with Failure e => [e] | Success _ => [] end.
Proof.
  intros G. rewrite JsMapFacts.set_fresh by assumption.
  rewrite failures_app. destruct r; reflexivity.
Qed.

Lemma conclude_reported t failed st :
  registered tasks t -> reported tasks st ->
  JsMap.get (name t) (finished st) = None ->
  post (reported tasks) (fun _ => reported tasks) (conclude cyan t failed st).
Proof.
  intros Ht (Hs & Hf & Hsh & Hst & Hpl) G.
  unfold conclude. destruct failed; simpl.
  - unfold reported; simpl.
    rewrite starts_app, finishes_app, invocations_app, shown_app,
      plain_finishes_app; simpl.
    rewrite !app_nil_r, failures_set_fresh by assumption.
    unfold failure. repeat split; auto; congruence.
  - unfold exec_task, failure, success. destruct (fn t) as [f|] eqn:Hfn.
    + pose proof (tasks_typed t f (world st) Ht Hfn) as Hty.
      pose proof (tasks_printable t f (world st) Ht Hfn) as Hpr.
      simpl.
      assert (Hstart : forall n, In n (starts (trace st) ++ [name t]) ->
                exists t', registered tasks t' /\ name t' = n /\ fn t' <> None).
      { intros n Hn. apply in_app_or in Hn as [Hn|[<-|[]]]; [auto|].
        exists t. repeat split; auto. congruence. }
      destruct (f (world st)) as [w [[v|[v0|e]]|e]]; simpl in *;
        try (destruct v; try contradiction);
        try (destruct e; try contradiction); simpl;
        unfold reported; simpl;
        rewrite ?starts_app, ?finishes_app, ?invocations_app, ?shown_app,
          ?plain_finishes_app; simpl;
        rewrite ?starts_app, ?finishes_app, ?invocations_app, ?shown_app,
          ?plain_finishes_app; simpl;
        rewrite ?starts_app, ?finishes_app, ?invocations_app, ?shown_app,
          ?plain_finishes_app; simpl;
        rewrite ?app_nil_r, ?failures_set_fresh by assumption; simpl;
        rewrite ?app_nil_r;
        repeat split; auto; congruence.
    + simpl. unfold reported; simpl.
      rewrite starts_app, finishes_app, invocations_app, shown_app,
        plain_finishes_app; simpl.
      rewrite !app_nil_r, failures_set_fresh by assumption. simpl.
      rewrite app_nil_r.
      repeat split; auto.
      intros n Hn. apply in_app_or in Hn as [Hn|[<-|[]]]; [auto|].
      exists t. auto.
Qed.

Lemma run_reported fuel t st :
  registered tasks t -> reported tasks st ->
  post (reported tasks) (fun _ => reported tasks) (_run cyan tasks fuel t st).
Proof.
  apply (run_rule cyan tasks tasks_ok (reported tasks) (fun _ => reported tasks)); auto.
  intros; now apply conclude_reported.
Qed.

Lemma run_from_reported fuel names st :
  reported tasks st ->
  post (reported tasks) (fun _ => reported tasks) (run_from cyan tasks fuel names st).
Proof.
  apply (run_from_rule cyan tasks tasks_ok (reported tasks) (fun _ => reported tasks)); auto.
  intros; now apply conclude_reported.
Qed.

Lemma reported_init w : reported tasks (init w).
Proof. unfold reported; simpl. repeat split; auto; intros n []. Qed.

End Reporting.

(** ** The dependency loops and the [failed] flag *)

Section FailedFlag.

Context {World : Type}.
Variable cyan : string -> string.
Variable tasks : list (string * Task World).
Variable exec : Task World -> RunState World -> Outcome Result * RunState World.
Implicit Types (t d : Task World) (st : RunState World).

Lemma for_deps_flag l :
  (forall x, In x l -> keeps_cache exec x) ->
  forall failed st b st1,
    for_deps exec l failed st = (Done b, st1) ->
    extends st st1 /\
    (forall x, In x l ->
       exists r, JsMap.get (name x) (finished st1) = Some r /\
                 (is_Failure r = true -> b = true)) /\
    (failed = true -> b = true) /\
    (b = true -> failed = true \/
       exists x e, In x l /\ JsMap.get (name x) (finished st1) = Some (Failure e)).
Proof.
  induction l as [|x l IH]; intros Hk failed st b st1; simpl.
  - intros [= <- <-]. repeat split; auto; try tauto. intros n r H; exact H.
  - destruct (Hk x (or_introl eq_refl)) as [Hstore Hext].
    specialize (Hext st).
    destruct (exec x st) as [[r|e|] s'] eqn:E; try discriminate.
    simpl in Hext. intros Hloop.
    apply IH in Hloop as (He & Hall & Hf & Hb); [|intros; apply Hk; now right].
    pose proof (He _ _ (Hstore _ _ _ E)) as Hx.
    split; [intros n r0 H; auto|]. split; [|split].
    + intros y [<-|Hy]; [|auto]. exists r. split; [assumption|].
      intros Hr. apply Hf. now rewrite Hr.
    + intros ->. apply Hf. now destruct (is_Failure r).
    + intros Hbt. destruct (Hb Hbt) as [Hr|[y [e [Hy Gy]]]].
      * destruct r as [v|e]; simpl in Hr; [now left|].
        right. exists x, e. auto.
      * right. exists y, e. auto.
Qed.

Lemma for_names_flag t names :
  (forall n l x, In n names -> resolve_task cyan tasks n (Some t) = inr l ->
     In x l -> keeps_cache exec x) ->
  forall failed st b st1,
    for_names cyan tasks exec t names failed st = (Done b, st1) ->
    extends st st1 /\
    (forall n l x, In n names -> resolve_task cyan tasks n (Some t) = inr l ->
       In x l ->
       exists r, JsMap.get (name x) (finished st1) = Some r /\
                 (is_Failure r = true -> b = true)) /\
    (failed = true -> b = true) /\
    (b = true -> failed = true \/
       exists n l x e, In n names /\ resolve_task cyan tasks n (Some t) = inr l /\
         In x l /\ JsMap.get (name x) (finished st1) = Some (Failure e)) /\
    (forall n, In n names -> exists l, resolve_task cyan tasks n (Some t) = inr l).
Proof.
  induction names as [|n names IH]; intros Hk failed st b st1; simpl.
  - intros [= <- <-].
    repeat split; auto; try tauto; try (intros m r H; exact H); intros ? [].
  - destruct (resolve_task cyan tasks n (Some t)) as [e|l] eqn:R; [discriminate|].
    destruct (for_deps exec l failed st) as [[b0|e|] s0] eqn:E; try discriminate.
    apply for_deps_flag in E as (He0 & Hall0 & Hf0 & Hb0);
      [|intros x Hx; apply (Hk n l x); simpl; auto].
    intros Hloop.
    apply IH in Hloop as (He & Hall & Hf & Hb & Hres);
      [|intros n' l' x Hn' R' Hx; apply (Hk n' l' x); simpl; auto].
    split; [intros m r H; auto|]. split; [|split; [|split]].
    + intros n' l' x [<-|Hn'] R' Hx.
      * rewrite R in R'. injection R' as <-.
        destruct (Hall0 x Hx) as [r [Gr Hr]].
        exists r. split; [now apply He|]. auto.
      * eauto.
    + auto.
    + intros Hbt. destruct (Hb Hbt) as [Hb0t|(n' & l' & x & e & Hn' & R' & Hx & Gx)].
      * destruct (Hb0 Hb0t) as [Hft|(x & e & Hx & Gx)]; [now left|].
        right. exists n, l, x, e. repeat split; auto.
      * right. exists n', l', x, e. repeat split; auto.
    + intros n' [<-|Hn']; [eauto|auto].
Qed.

End FailedFlag.

(** ** Splitting the loops *)

Section LoopSplit.

Context {World : Type}.
Variable cyan : string -> string.
Variable tasks : list (string * Task World).
Variable exec : Task World -> RunState World -> Outcome Result * RunState World.
Implicit Types (t d : Task World) (st : RunState World).

Lemma for_names_app t a b failed st :
  for_names cyan tasks exec t (a ++ b) failed st =
    match for_names cyan tasks exec t a failed st with
    | (Done failed', st') => for_names cyan tasks exec t b failed' st'
    | other => other
    end.
Proof.
  revert failed st. induction a as [|n a IH]; intros failed st; simpl.
  - reflexivity.
  - destruct (resolve_task cyan tasks n (Some t)) as [e|l]; [reflexivity|].
    destruct (for_deps exec l failed st) as [[b0|e|] s0]; auto.
Qed.

Lemma top_tasks_app a b st :
  top_tasks exec (a ++ b) st =
    match top_tasks exec a st with
    | (Done None, st') => top_tasks exec b st'
    | other => other
    end.
Proof.
  revert st. induction a as [|x a IH]; intros st; simpl.
  - reflexivity.
  - destruct (exec x st) as [[r|e|] s0]; auto.
    destruct (is_Failure r); auto.
Qed.

Lemma top_tasks_some l st r st' :
  top_tasks exec l st = (Done (Some r), st') -> is_Failure r = true.
Proof.
  revert st. induction l as [|x l IH]; intros st; simpl; [discriminate|].
  destruct (exec x st) as [[r0|e|] s0]; try discriminate.
  destruct (is_Failure r0) eqn:E; [|apply IH].
  now intros [= <- <-].
Qed.

Lemma top_names_app a b st :
  top_names cyan tasks exec (a ++ b) st =
    match top_names cyan tasks exec a st with
    | (Done (Success _), st') => top_names cyan tasks exec b st'
    | other => other
    end.
Proof.
  revert st. induction a as [|n a IH]; intros st; simpl.
  - reflexivity.
  - destruct (resolve_task cyan tasks n None) as [e|l]; [reflexivity|].
    destruct (top_tasks exec l st) as [[[r|]|e|] s0] eqn:E; auto.
    apply top_tasks_some in E. destruct r; [discriminate|reflexivity].
Qed.

(** A pattern that resolves to no task leaves the dependency loop as it
    would be without the pattern. *)
Lemma for_names_empty_pattern t pre n post failed st :
  resolve_task cyan tasks n (Some t) = inr [] ->
  for_names cyan tasks exec t (pre ++ n :: post) failed st =
  for_names cyan tasks exec t (pre ++ post) failed st.
Proof.
  intros R. rewrite !for_names_app.
  destruct (for_names cyan tasks exec t pre failed st) as [[b|e|] s]; auto.
  simpl. now rewrite R.
Qed.

End LoopSplit.

Section TopLevel.

Context {World : Type}.
Variable cyan : string -> string.
Variable tasks : list (string * Task World).
Implicit Types (t d : Task World) (st : RunState World).

Lemma all_succeed_top_tasks fuel l st st' :
  all_succeed cyan tasks fuel l st st' ->
  top_tasks (_run cyan tasks fuel) l st = (Done None, st').
Proof.
  induction 1 as [st|t l v st st1 st2 E _ IH]; simpl; [reflexivity|].
  now rewrite E.
Qed.

Lemma top_tasks_all_succeed fuel l st st' :
  top_tasks (_run cyan tasks fuel) l st = (Done None, st') ->
  all_succeed cyan tasks fuel l st st'.
Proof.
  revert st. induction l as [|t l IH]; intros st; simpl.
  - intros [= <-]. constructor.
  - destruct (_run cyan tasks fuel t st) as [[r|e|] s0] eqn:E; try discriminate.
    destruct r as [v|e]; simpl; [|discriminate].
    intros H. econstructor; eauto.
Qed.

Lemma names_succeed_run_from fuel names st st' :
  names_succeed cyan tasks fuel names st st' ->
  run_from cyan tasks fuel names st = (Done (Success VUndefined), st').
Proof.
  unfold run_from.
  induction 1 as [st|n names l st st1 st2 R Hl _ IH]; simpl; [reflexivity|].
  rewrite R, (all_succeed_top_tasks _ _ _ _ Hl). exact IH.
Qed.

Lemma run_from_names_succeed fuel names st v st' :
  run_from cyan tasks fuel names st = (Done (Success v), st') ->
  v = VUndefined /\ names_succeed cyan tasks fuel names st st'.
Proof.
  unfold run_from. revert st.
  induction names as [|n names IH]; intros st; simpl.
  - intros [= <- <-]. split; [reflexivity|constructor].
  - destruct (resolve_task cyan tasks n None) as [e|l] eqn:R; [discriminate|].
    destruct (top_tasks (_run cyan tasks fuel) l st) as [[[r|]|e|] s0] eqn:E;
      try discriminate.
    + apply top_tasks_some in E. intros [= -> <-]. discriminate.
    + intros H. apply IH in H as [-> H]. split; [reflexivity|].
      econstructor; eauto. now apply top_tasks_all_succeed.
Qed.

End TopLevel.

(** ** Fuel *)

Section Fuel.

Context {World : Type}.
Variable cyan : string -> string.
Variable tasks : list (string * Task World).
Implicit Types (t d : Task World) (st : RunState World).

(** Two recursive calls of which the second agrees with the first
    wherever the first has enough fuel give loops that agree the same
    way. *)
Section Agree.
Variables exec1 exec2 :
  Task World -> RunState World -> Outcome Result * RunState World.
Hypothesis agree :
  forall x s, fst (exec1 x s) <> OutOfFuel -> exec2 x s = exec1 x s.

Lemma for_deps_agree l failed st :
  fst (for_deps exec1 l failed st) <> OutOfFuel ->
  for_deps exec2 l failed st = for_deps exec1 l failed st.
Proof.
  revert failed st. induction l as [|x l IH]; intros failed st; simpl; auto.
  pose proof (agree x st) as Hx.
  destruct (exec1 x st) as [[r|e|] s0]; simpl in *; intros H;
    [| |now elim H]; rewrite Hx by discriminate; auto.
Qed.

Lemma for_names_agree t names failed st :
  fst (for_names cyan tasks exec1 t names failed st) <> OutOfFuel ->
  for_names cyan tasks exec2 t names failed st =
  for_names cyan tasks exec1 t names failed st.
Proof.
  revert failed st. induction names as [|n names IH]; intros failed st; simpl; auto.
  destruct (resolve_task cyan tasks n (Some t)) as [e|l]; auto.
  pose proof (for_deps_agree l failed st) as Hl.
  destruct (for_deps exec1 l failed st) as [[b|e|] s0]; simpl in *; intros H;
    [| |now elim H]; rewrite Hl by discriminate; auto.
Qed.

Lemma top_tasks_agree l st :
  fst (top_tasks exec1 l st) <> OutOfFuel ->
  top_tasks exec2 l st = top_tasks exec1 l st.
Proof.
  revert st. induction l as [|x l IH]; intros st; simpl; auto.
  pose proof (agree x st) as Hx.
  destruct (exec1 x st) as [[r|e|] s0]; simpl in *; intros H;
    [| |now elim H]; rewrite Hx by discriminate; auto.
  destruct (is_Failure r); auto.
Qed.

Lemma top_names_agree names st :
  fst (top_names cyan tasks exec1 names st) <> OutOfFuel ->
  top_names cyan tasks exec2 names st = top_names cyan tasks exec1 names st.
Proof.
  revert st. induction names as [|n names IH]; intros st; simpl; auto.
  destruct (resolve_task cyan tasks n None) as [e|l]; auto.
  pose proof (top_tasks_agree l st) as Hl.
  destruct (top_tasks exec1 l st) as [[[r|]|e|] s0]; simpl in *; intros H;
    [| | |now elim H]; rewrite Hl by discriminate; auto.
Qed.
End Agree.

(** More fuel does not change an execution that had enough. *)
Lemma run_fuel_mono fuel :
  forall fuel' t st,
    fuel <= fuel' ->
    fst (_run cyan tasks fuel t st) <> OutOfFuel ->
    _run cyan tasks fuel' t st = _run cyan tasks fuel t st.
Proof.
  induction fuel as [|fuel IH]; intros fuel' t st Hle H; [now elim H|].
  destruct fuel' as [|fuel']; [lia|].
  simpl in *. destruct (JsMap.get (name t) (finished st)); [reflexivity|].
  assert (Hag : forall x s, fst (_run cyan tasks fuel x s) <> OutOfFuel ->
                  _run cyan tasks fuel' x s = _run cyan tasks fuel x s)
    by (intros; apply IH; [lia|assumption]).
  pose proof (for_names_agree _ _ Hag t (deps t) false st) as Hl.
  destruct (for_names cyan tasks (_run cyan tasks fuel) t (deps t) false st)
    as [[b|e|] s0]; simpl in *; [| |now elim H];
    rewrite Hl by discriminate; auto.
Qed.

Lemma run_from_fuel_mono fuel fuel' names st :
  fuel <= fuel' ->
  fst (run_from cyan tasks fuel names st) <> OutOfFuel ->
  run_from cyan tasks fuel' names st = run_from cyan tasks fuel names st.
Proof.
  intros Hle. unfold run_from. apply top_names_agree.
  intros x s. now apply run_fuel_mono.
Qed.

(** ** Termination on acyclic registries *)

Hypothesis tasks_acyclic : acyclic cyan tasks.

Lemma post_fuel {A} (r : Outcome A * RunState World) :
  post (fun _ => True) (fun e _ => e <> None) r <-> fst r <> OutOfFuel.
Proof.
  destruct r as [[a|e|] s]; simpl; split; auto; discriminate.
Qed.

(** [P] is the chain of tasks that wait for [t]; none is met twice, so the
    chain is no longer than the registry. *)
Lemma run_terminates fuel :
  forall (P : list (Task World)) t st,
    registered tasks t ->
    NoDup (t :: P) ->
    (forall a, In a P ->
       registered tasks a /\
       clos_trans (Task World) (resolved_dep cyan tasks) a t) ->
    length tasks < fuel + length (t :: P) ->
    fst (_run cyan tasks fuel t st) <> OutOfFuel.
Proof.
  induction fuel as [|fuel IH]; intros P t st Ht Hnd HP Hlen.
  - exfalso. simpl in Hlen.
    assert (Hincl : incl (t :: P) (JsMap.values tasks)).
    { intros a [<-|Ha]; [assumption|]. now apply HP. }
    pose proof (NoDup_incl_length Hnd Hincl) as Hl.
    unfold JsMap.values in Hl. rewrite length_map in Hl. simpl in Hl. lia.
  - destruct (JsMap.get (name t) (finished st)) as [r|] eqn:G.
    + rewrite (run_cached _ _ _ _ _ _ G). discriminate.
    + rewrite (run_fresh _ _ _ _ _ G).
      pose proof (for_names_post cyan tasks (_run cyan tasks fuel)
                    (fun _ => True) (fun e _ => e <> None) (fun _ => True)
                    (fun _ _ _ => ltac:(discriminate)) t (deps t)) as Hloop.
      lapply Hloop; [clear Hloop; intros Hloop|].
      2:{ intros n l x s Hn R Hx _.
          assert (Hdep : resolved_dep cyan tasks t x) by (exists n, l; auto).
          assert (Rx : registered tasks x) by (eapply resolve_task_in; eauto).
          eapply post_weaken; [| |apply post_fuel, (IH (t :: P) x s Rx)];
            simpl; auto.
          - constructor; [|assumption].
            intros [<-|Hin].
            + apply (tasks_acyclic t Ht). now apply t_step.
            + apply (tasks_acyclic x Rx).
              eapply t_trans; [apply (HP x Hin)|now apply t_step].
          - intros a [<-|Ha]; [split; [assumption|now apply t_step]|].
            destruct (HP a Ha). split; [assumption|].
            eapply t_trans; [eassumption|now apply t_step].
          - simpl in *. lia. }
      specialize (Hloop false st Logic.I).
      apply (post_weaken _ (fun _ => True) _ (fun e _ => e <> None)) in Hloop;
        auto.
      apply post_fuel in Hloop.
      destruct (for_names cyan tasks (_run cyan tasks fuel) t (deps t) false st)
        as [[failed|e|] st1]; simpl in *; [|discriminate|now elim Hloop].
      pose proof (conclude_finished cyan t failed st1) as Hc.
      destruct (conclude cyan t failed st1) as [[r|e|] st2]; simpl;
        [discriminate|discriminate|contradiction].
Qed.

Lemma run_from_terminates fuel names st :
  length tasks <= fuel ->
  fst (run_from cyan tasks fuel names st) <> OutOfFuel.
Proof.
  intros Hlen. unfold run_from. apply post_fuel.
  apply (top_names_post cyan tasks (_run cyan tasks fuel)
           (fun _ => True) (fun e _ => e <> None) (fun _ => True));
    [discriminate| |exact Logic.I].
  intros n l x s Hn R Hx _.
  eapply post_weaken; [| |apply post_fuel, (run_terminates fuel [] x s)];
    simpl; auto.
  - eapply resolve_task_in; eauto.
  - repeat constructor. intros [].
  - intros a [].
  - lia.
Qed.

End Fuel.

(** ** The dependency loop of a task *)

Section DependencyLoop.

Context {World : Type}.
Variable cyan : string -> string.
Variable tasks : list (string * Task World).
Hypothesis tasks_ok : registry_ok tasks.
Implicit Types (t d : Task World) (st : RunState World).

(** The invariants of [_run] hold along the dependency loop too. *)
Lemma deps_rule (I : RunState World -> Prop) J :
  (forall e st, I st -> J (Some e) st) ->
  (forall st, I st -> J None st) ->
  (forall t failed st,
      registered tasks t -> I st ->
      JsMap.get (name t) (finished st) = None ->
      post I J (conclude cyan t failed st)) ->
  forall fuel t names failed st,
    I st ->
    post I J (for_names cyan tasks (_run cyan tasks fuel) t names failed st).
Proof.
  intros Hthrow Hfuel Hconc fuel t names failed st HI.
  eapply post_weaken;
    [| |apply (for_names_post cyan tasks (_run cyan tasks fuel) I J
                 (fun _ => True) Hthrow t names)]; simpl; auto; [tauto|].
  intros n l x s Hn R Hx Hs.
  eapply post_weaken;
    [| |apply (run_rule cyan tasks tasks_ok I J Hthrow Hfuel Hconc fuel x s)];
    simpl; auto.
  eapply resolve_task_in; eauto.
Qed.

(** While any of the dependency patterns of [t] are worked on, [t] gets
    no cache entry. *)
Lemma deps_sub_fresh fuel t names failed st :
  registered tasks t ->
  incl names (deps t) ->
  JsMap.get (name t) (finished st) = None ->
  post (fun s => JsMap.get (name t) (finished s) = None) (fun _ _ => True)
       (for_names cyan tasks (_run cyan tasks fuel) t names failed st).
Proof.
  intros Ht Hincl G.
  pose proof (for_names_post cyan tasks (_run cyan tasks fuel)
                (unfinished (eq t)) (fun _ _ => True) (fun x => True)
                (fun _ _ _ => I) t names) as Hloop.
  lapply Hloop; [clear Hloop; intros Hloop|].
  - assert (H0 : unfinished (eq t) st) by (intros a <-; exact G).
    specialize (Hloop failed st H0).
    eapply post_weaken; [| |exact Hloop]; simpl; [|auto].
    intros s [Hs _]. now apply Hs.
  - intros n l x s Hn R Hx Hs.
    eapply post_weaken;
      [| |apply (no_reentry cyan tasks tasks_ok fuel x (eq t) s)];
      simpl; [tauto|auto|eapply resolve_task_in; eauto| |assumption].
    intros a <-. split; [assumption|]. exists x. split; [|now right].
    exists n, l. auto.
Qed.

Lemma run_keeps_cache fuel x :
  registered tasks x -> keeps_cache (_run cyan tasks fuel) x.
Proof.
  intros Rx. split.
  - intros s r s'. apply run_stored.
  - intros s. now apply run_extends.
Qed.

End DependencyLoop.

(* ================================================================== *)
(** * The resolver and the executor *)

Section ResolverTheorems.

Context {World : Type}.
Variable cyan : string -> string.
Variable tasks : list (string * Task World).
Implicit Types (t d : Task World) (st : RunState World).

Lemma append_assoc (a b c : string) :
  ((a ++ b) ++ c = a ++ (b ++ c))%string.
Proof. induction a as [|x a IH]; simpl; [reflexivity|now rewrite IH]. Qed.

(** The message of the error for an unknown dependency. *)
Lemma unknown_task_message n (p : Task World) :
  unknown_task cyan n (Some p) =
    BuildError "build"
      ("unknown task '" ++ cyan n ++ "' referenced from '" ++ cyan (name p) ++ "'").
Proof.
  unfold unknown_task. f_equal.
  rewrite !append_assoc. reflexivity.
Qed.

(** C1, as amended.  When [run] reaches a requested name that is not a
    wildcard and is not registered, after the names before it have all
    succeeded, [run] throws: its promise is rejected with the
    [BuildError] of component "build" whose message is
    [unknown task '<name>'], with no "referenced from" part.  The error
    is not returned as a Failure, and the state is the one in which the
    name was reached. *)
Theorem run_unknown_task_throws n fuel pre rest st st1 :
  opt_is (fst (split_name n)) "*" = false ->
  JsMap.has n tasks = false ->
  names_succeed cyan tasks fuel pre st st1 ->
  run_from cyan tasks fuel (pre ++ n :: rest) st =
    (Thrown (BuildError "build" ("unknown task '" ++ cyan n ++ "'")), st1).
Proof.
  intros Hstar Hhas Hpre. unfold run_from. rewrite top_names_app.
  apply names_succeed_run_from in Hpre. unfold run_from in Hpre.
  rewrite Hpre. simpl.
  now rewrite (resolve_task_unknown cyan tasks n None Hstar Hhas).
Qed.

(** C2, as amended.  When the dependency scan of a task [t] reaches a
    pattern [ghost] that is not a wildcard and is not registered,
    [_run t] throws the [BuildError] whose message names [ghost] and
    says it is referenced from [t]; the patterns after [ghost] are not
    looked at: the state is the one the patterns before [ghost] left.
    The error is an exception, not a Result: [t] gets no cache entry,
    [show_failure] is not called, and [run] throws the same error. *)
Theorem unknown_dependency_throws fuel t pre ghost rest failed st st1 :
  registry_ok tasks -> registered tasks t ->
  JsMap.get (name t) (finished st) = None ->
  deps t = pre ++ ghost :: rest ->
  opt_is (fst (split_name ghost)) "*" = false ->
  JsMap.has ghost tasks = false ->
  for_names cyan tasks (_run cyan tasks fuel) t pre false st = (Done failed, st1) ->
  let error :=
    BuildError "build"
      ("unknown task '" ++ cyan ghost ++ "' referenced from '" ++
       cyan (name t) ++ "'") in
  _run cyan tasks (S fuel) t st = (Thrown error, st1) /\
  JsMap.get (name t) (finished st1) = None /\
  (forall n names,
      resolve_task cyan tasks n None = inr [t] ->
      run_from cyan tasks (S fuel) (n :: names) st = (Thrown error, st1)).
Proof.
  intros Hok Ht G Hdeps Hstar Hhas Hpre error.
  assert (Hrun : _run cyan tasks (S fuel) t st = (Thrown error, st1)).
  { rewrite (run_fresh _ _ _ _ _ G), Hdeps, for_names_app, Hpre. simpl.
    rewrite (resolve_task_unknown cyan tasks ghost (Some t) Hstar Hhas).
    now rewrite unknown_task_message. }
  split; [assumption|]. split.
  - pose proof (deps_sub_fresh cyan tasks Hok fuel t pre false st Ht) as H.
    rewrite Hpre in H. apply H; [|assumption].
    rewrite Hdeps. intros x Hx. apply in_or_app. now left.
  - intros n names R. unfold run_from. cbn [top_names]. rewrite R.
    cbn [top_tasks]. now rewrite Hrun.
Qed.


(** C4, as amended.  For a task with an action: if the action throws or
    rejects with [e], the Result is the Failure that carries [e] itself;
    if it returns nothing, the Result is the Success of [undefined]; if
    it returns a Result, that Result is returned as it is. *)
Theorem exec_task_result t f st w settled :
  fn t = Some f ->
  f (world st) = (w, settled) ->
  (forall e, settled = Rejects e ->
             fst (exec_task t st) = Done (Failure e)) /\
  (settled = Resolves (RetValue VUndefined) ->
   fst (exec_task t st) = Done (Success VUndefined)) /\
  (forall r, settled = Resolves (RetResult r) ->
             fst (exec_task t st) = Done r).
Proof.
  intros Hfn Hf. unfold exec_task. rewrite Hfn. simpl. rewrite Hf.
  repeat split; intros; subst settled; reflexivity.
Qed.

End ResolverTheorems.

(** C1, at a concrete input. *)
Lemma run_unknown_task_throws_witness :
  run_from Examples.plain Examples.empty 1 ["does-not-exist"] (init 0) =
    (Thrown (BuildError "build" "unknown task 'does-not-exist'"), init 0).
Proof.
  apply (run_unknown_task_throws Examples.plain Examples.empty
           "does-not-exist" 1 [] [] (init 0) (init 0)).
  - reflexivity.
  - reflexivity.
  - constructor.
Defined.

(** C1 as stated fails: [run] on an unregistered name does not return a
    Failure. *)
Lemma run_unknown_task_returns_no_failure :
  ~ exists e st',
      run Examples.plain Examples.empty 1 ["does-not-exist"] 0 =
        (Done (Failure e), st').
Proof. intros [e [st' H]]. discriminate H. Qed.

Lemma ghost_registry_ok : registry_ok Examples.ghost_registry.
Proof. repeat apply task_registry_ok. apply registry_ok_empty. Qed.

(** C2, at a concrete input: [T] with the dependencies [a], [ghost], [b]. *)
Lemma unknown_dependency_throws_witness :
  _run Examples.plain Examples.ghost_registry 2 Examples.task_T (init 0) =
    (Thrown (BuildError "build" "unknown task 'ghost' referenced from 'T'"),
     {| world := 1;
        finished := [("a", Success VUndefined)];
        trace := [LogStarting "a"; Invoke "a"; LogAfter "a" true] |}).
Proof.
  refine (proj1 (unknown_dependency_throws Examples.plain Examples.ghost_registry
                   1 Examples.task_T ["a"] "ghost" ["b"] false (init 0) _
                   ghost_registry_ok _ eq_refl eq_refl eq_refl eq_refl eq_refl)).
  unfold registered. cbv. tauto.
Defined.

(** C2 as stated fails: executing [T] does not give a Failure result, and
    nothing is cached or shown for [T]. *)
Lemma unknown_dependency_is_not_a_result :
  ~ exists e st',
      _run Examples.plain Examples.ghost_registry 2 Examples.task_T (init 0) =
        (Done (Failure e), st') /\
      JsMap.get "T" (finished st') = Some (Failure e) /\
      In e (shown (trace st')).
Proof. intros [e [st' [H _]]]. discriminate H. Qed.



(** C3: at the pattern [*:a:b] the suffix the resolver works with is [a],
    not [a:b]; the task [x:a] is matched and the task [y:a:b], whose
    name ends with [:a:b], is not. *)
Lemma split_name_cuts_suffix :
  split_name "*:a:b" = (Some "*", Some "a") /\
  resolve_task Examples.plain Examples.js_registry "*:a:b" None =
    inr [mkTask "x:a" [] None] /\
  JsString.endsWith "y:a:b" ":a:b" = true /\
  registered Examples.js_registry (mkTask "y:a:b" [] None).
Proof. repeat split; try reflexivity. unfold registered. cbv. tauto. Qed.

(** C4, at a concrete input: an action that rejects. *)
Lemma exec_task_result_witness :
  fst (exec_task Examples.task_bad (init 0)) = Done (Failure (OtherError "boom")).
Proof.
  apply (proj1 (exec_task_result Examples.task_bad Examples.boom (init 0) 1
                  (Rejects (OtherError "boom")) eq_refl eq_refl)).
  reflexivity.
Defined.

(** C4 as stated fails for a bare value: an action that returns 42 does
    not give [Success 42]; the executor throws. *)
Lemma exec_task_bare_value :
  fst (exec_task Examples.task_bare (init 0)) = Thrown type_error /\
  fst (exec_task Examples.task_bare (init 0)) <> Done (Success (VNumber 42)).
Proof. split; [reflexivity|discriminate]. Qed.

(* ================================================================== *)
(** * Runs that throw nothing *)

Section NoThrow.

Context {World : Type}.
Variable cyan : string -> string.
Variable tasks : list (string * Task World).
Hypothesis tasks_resolvable : resolvable cyan tasks.
Hypothesis tasks_typed : typed_registry tasks.
Hypothesis tasks_printable : printable_failures tasks.
Implicit Types (t d : Task World) (st : RunState World).

Lemma for_deps_no_throw
    (exec : Task World -> RunState World -> Outcome Result * RunState World) l :
  (forall x s e, In x l -> fst (exec x s) <> Thrown e) ->
  forall failed st e, fst (for_deps exec l failed st) <> Thrown e.
Proof.
  induction l as [|x l IH]; simpl; intros H failed st e; [discriminate|].
  pose proof (H x st) as Hx.
  destruct (exec x st) as [[r|e'|] s1]; simpl in *.
  - apply IH. intros; apply H; auto.
  - intros _. now apply (Hx e' (or_introl eq_refl)).
  - discriminate.
Qed.

Lemma for_names_no_throw
    (exec : Task World -> RunState World -> Outcome Result * RunState World)
    t names :
  registered tasks t -> incl names (deps t) ->
  (forall x s e, registered tasks x -> fst (exec x s) <> Thrown e) ->
  forall failed st e,
    fst (for_names cyan tasks exec t names failed st) <> Thrown e.
Proof.
  intros Ht. induction names as [|n names IH]; simpl;
    intros Hincl H failed st e; [discriminate|].
  destruct (tasks_resolvable t n Ht (Hincl n (or_introl eq_refl))) as [l R].
  rewrite R.
  pose proof (for_deps_no_throw exec l) as Hl.
  lapply Hl; [clear Hl; intros Hl|].
  2:{ intros x s e' Hx. apply H. eapply resolve_task_in; eauto. }
  specialize (Hl failed st).
  destruct (for_deps exec l failed st) as [[b|e'|] s1]; simpl in *.
  - apply IH; [|assumption]. intros m Hm. apply Hincl. now right.
  - intros _. now apply (Hl e').
  - discriminate.
Qed.

(** With well-typed actions and printable failures the end of [_run]
    throws nothing. *)
Lemma conclude_no_throw t failed st e :
  registered tasks t -> fst (conclude cyan t failed st) <> Thrown e.
Proof.
  intros Ht. unfold conclude. destruct failed; simpl; [discriminate|].
  unfold exec_task. destruct (fn t) as [f|] eqn:Hfn; simpl; [|discriminate].
  pose proof (tasks_typed t f (world st) Ht Hfn) as Hw.
  pose proof (tasks_printable t f (world st) Ht Hfn) as Hp.
  destruct (f (world st)) as [w [[v|[v|e0]]|e0]]; simpl in *;
    try destruct v; try destruct e0; simpl;
    try discriminate; contradiction.
Qed.

Lemma run_no_throw fuel :
  forall t st e, registered tasks t -> fst (_run cyan tasks fuel t st) <> Thrown e.
Proof.
  induction fuel as [|fuel IH]; intros t st e Ht; [discriminate|].
  destruct (JsMap.get (name t) (finished st)) as [r|] eqn:G.
  - rewrite (run_cached _ _ _ _ _ _ G). discriminate.
  - rewrite (run_fresh _ _ _ _ _ G).
    pose proof (for_names_no_throw (_run cyan tasks fuel) t (deps t) Ht
                  (incl_refl _) (fun x s e' Hx => IH x s e' Hx) false st) as Hl.
    destruct (for_names cyan tasks (_run cyan tasks fuel) t (deps t) false st)
      as [[failed|e'|] st1]; simpl in *.
    + now apply conclude_no_throw.
    + intros _. now apply (Hl e').
    + discriminate.
Qed.

End NoThrow.

(* ================================================================== *)
(** * The graph runner *)

Section RunnerTheorems.

Context {World : Type}.
Variable cyan : string -> string.
Variable tasks : list (string * Task World).
Implicit Types (t d : Task World) (st : RunState World).

(** C5.  In one call of [run], whatever the fuel and however it ends, no
    action is called twice.  A cache hit returns the stored result and
    leaves world, cache and trace as they are.  Once [_run t] has
    returned [r], every later [_run t] of the run returns the same [r]:
    every step of the engine keeps the cache entries, so every later
    state extends the cache. *)
Theorem action_at_most_once fuel names w :
  registry_ok tasks ->
  NoDup (invocations (trace (snd (run cyan tasks fuel names w)))) /\
  (forall f t st r,
      JsMap.get (name t) (finished st) = Some r ->
      _run cyan tasks (S f) t st = (Done r, st)) /\
  (forall f t st r st',
      _run cyan tasks f t st = (Done r, st') ->
      forall st'' f', extends st' st'' ->
        _run cyan tasks (S f') t st'' = (Done r, st'')) /\
  (forall f t st,
      registered tasks t -> extends st (snd (_run cyan tasks f t st))) /\
  (forall f ns st, extends st (snd (run_from cyan tasks f ns st))).
Proof.
  intros Hok. repeat split.
  - pose proof (run_from_consistent cyan tasks Hok fuel names (init w)
                  (consistent_init w)) as H.
    unfold run. destruct (run_from cyan tasks fuel names (init w)) as [[r|e|] s];
      simpl in *; [apply H|exact H|exact H].
  - intros f t st r. apply run_cached.
  - intros f t st r st' H st'' f' Hext. apply run_cached.
    apply Hext. eapply run_stored; eauto.
  - intros f t st Ht. now apply run_extends.
  - intros f ns st. now apply run_from_extends.
Qed.

(** When the dependency loops of [t] have come back and one of the
    resolved dependencies has a Failure in the cache, [_run t] returns
    the Failure that names [t], stores it and shows it, and does not call
    the action of [t]. *)
Lemma failed_dependency_concluded fuel t st failed st1 :
  registry_ok tasks -> registered tasks t -> consistent st ->
  JsMap.get (name t) (finished st) = None ->
  for_names cyan tasks (_run cyan tasks fuel) t (deps t) false st =
    (Done failed, st1) ->
  (exists d e, resolved_dep cyan tasks t d /\
               JsMap.get (name d) (finished st1) = Some (Failure e)) ->
  let error := BuildError (name t) ("task '" ++ cyan (name t) ++ "' failed") in
  let st' := emit (ShowFailure error)
               (finished_set (name t) (Failure error) st1) in
  _run cyan tasks (S fuel) t st = (Done (Failure error), st') /\
  ~ In (name t) (invocations (trace st')) /\
  (forall d, resolved_dep cyan tasks t d ->
             exists rd, JsMap.get (name d) (finished st') = Some rd) /\
  NoDup (invocations (trace st')).
Proof.
  intros Hok Ht Hcons G Hloop [d [e [Hd Gd]]] error st'.
  pose proof (deps_loop_fresh cyan tasks Hok fuel t false st Ht G) as Hfresh.
  pose proof (deps_rule cyan tasks Hok consistent
                (fun _ s => NoDup (invocations (trace s)))
                (fun _ _ H => proj1 H) (fun _ H => proj1 H)
                (fun t' b s _ Hc G' => conclude_consistent cyan t' b s Hc G')
                fuel t (deps t) false st Hcons) as Hcons1.
  rewrite Hloop in Hfresh, Hcons1. simpl in Hfresh, Hcons1.
  destruct Hfresh as [G1 Hne].
  pose proof Hloop as Hflag.
  apply for_names_flag in Hflag as (_ & Hall & _ & _ & _).
  2:{ intros n l x Hn R Hx. apply run_keeps_cache; [assumption|].
      eapply resolve_task_in; eauto. }
  assert (Hname : forall x, resolved_dep cyan tasks t x -> name x <> name t).
  { intros x Hx E. apply (Hne x Hx).
    apply (registered_name_inj tasks x t Hok); auto.
    destruct Hx as [n [l [_ [R Hx]]]]. eapply resolve_task_in; eauto. }
  assert (Hfailed : failed = true).
  { destruct Hd as [n [l [Hn [R Hx]]]].
    destruct (Hall n l d Hn R Hx) as [rd [Grd Hflag]].
    apply Hflag. rewrite Gd in Grd. now injection Grd as <-. }
  subst failed.
  destruct Hcons1 as [Hnd Hin].
  assert (Hinv : invocations (trace st') = invocations (trace st1)).
  { unfold st'. simpl. rewrite invocations_app. simpl. apply app_nil_r. }
  split; [|split; [|split]].
  - rewrite (run_fresh _ _ _ _ _ G), Hloop. apply conclude_failed.
  - rewrite Hinv. intros H. now apply (Hin _ H).
  - intros x Hx. pose proof (Hname x Hx) as Hxn.
    destruct Hx as [n [l [Hn [R Hx]]]].
    destruct (Hall n l x Hn R Hx) as [rd [Grd _]]. exists rd.
    unfold st'. simpl. now rewrite JsMapFacts.get_set_other.
  - now rewrite Hinv.
Qed.

(** C7.  [run] goes through the requested names in order.  When the
    names before [n] have all succeeded, and so have the tasks that [n]
    resolves to before [t], and [_run t] returns a Failure, then [run]
    returns that Failure in the state right after [t]: no later task of
    [n] and no later name is touched.  When every name resolves and every
    task succeeds, [run] returns the Success of [undefined].  And [run]
    returns no other way. *)
Theorem run_first_failure fuel names st :
  (forall pre n rest l1 t l2 e st1 st2 st3,
      names = pre ++ n :: rest ->
      names_succeed cyan tasks fuel pre st st1 ->
      resolve_task cyan tasks n None = inr (l1 ++ t :: l2) ->
      all_succeed cyan tasks fuel l1 st1 st2 ->
      _run cyan tasks fuel t st2 = (Done (Failure e), st3) ->
      run_from cyan tasks fuel names st = (Done (Failure e), st3)) /\
  (forall st',
      names_succeed cyan tasks fuel names st st' ->
      run_from cyan tasks fuel names st = (Done (Success VUndefined), st')) /\
  (forall r st',
      run_from cyan tasks fuel names st = (Done r, st') ->
      (r = Success VUndefined /\ names_succeed cyan tasks fuel names st st') \/
      (exists pre n rest l1 t l2 e st1 st2,
          names = pre ++ n :: rest /\
          names_succeed cyan tasks fuel pre st st1 /\
          resolve_task cyan tasks n None = inr (l1 ++ t :: l2) /\
          all_succeed cyan tasks fuel l1 st1 st2 /\
          _run cyan tasks fuel t st2 = (Done (Failure e), st') /\
          r = Failure e)).
Proof.
  split; [|split].
  - intros pre n rest l1 t l2 e st1 st2 st3 -> Hpre R Hl1 Ht.
    unfold run_from. rewrite top_names_app.
    apply names_succeed_run_from in Hpre. unfold run_from in Hpre.
    rewrite Hpre. cbn [top_names]. rewrite R, top_tasks_app.
    rewrite (all_succeed_top_tasks _ _ _ _ _ _ Hl1). cbn [top_tasks].
    now rewrite Ht.
  - apply names_succeed_run_from.
  - revert st. induction names as [|n ns IH]; intros st r st'.
    + unfold run_from. simpl. intros [= <- <-]. left. split; constructor.
    + unfold run_from in *. cbn [top_names].
      destruct (resolve_task cyan tasks n None) as [e|l] eqn:R; [discriminate|].
      destruct (top_tasks (_run cyan tasks fuel) l st) as [[[r0|]|e|] s0] eqn:E;
        try discriminate.
      * intros [= <- <-]. right.
        assert (Hsplit : exists l1 t l2 e s1,
                   l = l1 ++ t :: l2 /\
                   all_succeed cyan tasks fuel l1 st s1 /\
                   _run cyan tasks fuel t s1 = (Done (Failure e), s0) /\
                   r0 = Failure e).
        { clear R. revert st E. induction l as [|x l IHl]; intros st; simpl;
            [discriminate|].
          destruct (_run cyan tasks fuel x st) as [[rx|ex|] sx] eqn:Ex;
            try discriminate.
          destruct rx as [v|ex]; simpl.
          - intros H. apply IHl in H as (l1 & t & l2 & e & s1 & -> & Hs & Ht & ->).
            exists (x :: l1), t, l2, e, s1. repeat split; auto.
            econstructor; eauto.
          - intros [= <- <-]. exists [], x, l, ex, st.
            repeat split; auto. constructor. }
        destruct Hsplit as (l1 & t & l2 & e & s1 & -> & Hs & Ht & ->).
        exists [], n, ns, l1, t, l2, e, st, s1.
        repeat split; auto. constructor.
      * intros H. apply top_tasks_all_succeed in E.
        apply IH in H as [[-> Hns]|H].
        -- left. split; [reflexivity|]. econstructor; eauto.
        -- right.
           destruct H as (pre & n' & rest & l1 & t & l2 & e & s1 & s2 &
                          -> & Hpre & R' & Hl1 & Ht & ->).
           exists (n :: pre), n', rest, l1, t, l2, e, s1, s2.
           repeat split; auto. econstructor; eauto.
Qed.


End RunnerTheorems.

(* ================================================================== *)
(** * Termination *)

Section TerminationTheorems.

Context {World : Type}.
Variable cyan : string -> string.
Variable tasks : list (string * Task World).
Implicit Types (t d : Task World) (st : RunState World).

(** A registry whose resolved dependencies go down a rank is acyclic. *)
Lemma ranked_acyclic (rank : Task World -> nat) :
  (forall t d, registered tasks t -> resolved_dep cyan tasks t d ->
               rank d < rank t) ->
  acyclic cyan tasks.
Proof.
  intros Hrank.
  assert (H : forall t d,
             clos_trans (Task World) (resolved_dep cyan tasks) t d ->
             registered tasks t -> registered tasks d /\ rank d < rank t).
  { induction 1 as [t d Hd|t m d _ IH1 _ IH2]; intros Ht.
    - split; [now apply resolved_dep_registered in Hd|auto].
    - destruct (IH1 Ht) as [Hm H1]. destruct (IH2 Hm) as [Hd H2].
      split; [assumption|lia]. }
  intros t Ht Hc. destruct (H t t Hc Ht) as [_ Hlt]. lia.
Qed.


End TerminationTheorems.

(* ================================================================== *)
(** * The example registries *)

Lemma build_registry_ok : registry_ok Examples.build_registry.
Proof. repeat apply task_registry_ok. apply registry_ok_empty. Qed.

Lemma build_registry_printable : printable_failures Examples.build_registry.
Proof.
  intros t f w Ht Hfn. unfold registered in Ht. simpl in Ht.
  repeat (destruct Ht as [<-|Ht];
          [simpl in Hfn; try discriminate; injection Hfn as <-; exact I|]).
  destruct Ht.
Qed.

Lemma build_registry_typed : typed_registry Examples.build_registry.
Proof.
  intros t f w Ht Hfn. unfold registered in Ht. simpl in Ht.
  repeat (destruct Ht as [<-|Ht];
          [simpl in Hfn; try discriminate; injection Hfn as <-; exact I|]).
  destruct Ht.
Qed.

Lemma build_registry_acyclic : acyclic Examples.plain Examples.build_registry.
Proof.
  apply (ranked_acyclic Examples.plain Examples.build_registry Examples.build_rank).
  intros t d Ht [n [l [Hn [R Hd]]]].
  unfold registered in Ht. simpl in Ht.
  repeat (destruct Ht as [<-|Ht];
          [simpl in Hn;
           repeat (destruct Hn as [<-|Hn];
                   [vm_compute in R; injection R as <-; simpl in Hd;
                    repeat (destruct Hd as [<-|Hd]; [vm_compute; lia|]);
                    destruct Hd|]);
           destruct Hn|]).
  destruct Ht.
Qed.

(** C5, at a concrete input: [both] depends on [left] and [right], which
    both depend on [a]. *)
Lemma action_at_most_once_witness :
  NoDup (invocations
           (trace (snd (run Examples.plain Examples.build_registry 3 ["both"] 0)))).
Proof.
  apply (proj1 (action_at_most_once Examples.plain Examples.build_registry
                  3 ["both"] 0 build_registry_ok)).
Defined.

(** The run of [both] calls [a] once, and [left] and [right] see the same
    result. *)
Example run_both :
  run Examples.plain Examples.build_registry 3 ["both"] 0 =
    (Done (Success VUndefined),
     {| world := 3;
        finished := [("a", Success VUndefined); ("left", Success (VNumber 1));
                     ("right", Success (VNumber 2)); ("both", Success VUndefined)];
        trace := [LogStarting "a"; Invoke "a"; LogAfter "a" true;
                  LogStarting "left"; Invoke "left"; LogAfter "left" true;
                  LogStarting "right"; Invoke "right"; LogAfter "right" true;
                  LogFinished "both"] |}).
Proof. reflexivity. Qed.

Lemma build_registry_resolvable :
  resolvable Examples.plain Examples.build_registry.
Proof.
  intros t n Ht Hn. unfold registered in Ht. simpl in Ht.
  repeat (destruct Ht as [<-|Ht];
          [simpl in Hn;
           repeat (destruct Hn as [<-|Hn]; [eexists; vm_compute; reflexivity|]);
           destruct Hn|]).
  destruct Ht.
Qed.



(** C7, at a concrete input: [a] succeeds, [bad] fails, [b] is not
    attempted. *)
Lemma run_first_failure_witness :
  run_from Examples.plain Examples.build_registry 2 ["a"; "bad"; "b"] (init 0) =
    (Done (Failure (OtherError "boom")),
     {| world := 2;
        finished := [("a", Success VUndefined); ("bad", Failure (OtherError "boom"))];
        trace := [LogStarting "a"; Invoke "a"; LogAfter "a" true;
                  LogStarting "bad"; Invoke "bad"; LogAfter "bad" false;
                  ShowFailure (OtherError "boom")] |}).
Proof.
  apply (proj1 (run_first_failure Examples.plain Examples.build_registry 2
                  ["a"; "bad"; "b"] (init 0))
           ["a"] "bad" ["b"] [] Examples.task_bad [] (OtherError "boom")
           {| world := 1;
              finished := [("a", Success VUndefined)];
              trace := [LogStarting "a"; Invoke "a"; LogAfter "a" true] |}
           {| world := 1;
              finished := [("a", Success VUndefined)];
              trace := [LogStarting "a"; Invoke "a"; LogAfter "a" true] |}).
  - reflexivity.
  - eapply names_succeed_cons; [reflexivity| |constructor].
    eapply all_succeed_cons; [reflexivity|constructor].
  - reflexivity.
  - constructor.
  - reflexivity.
Defined.



(** An action that rejects without a reason: the Failure is stored, the
    closing line is written, and [show_failure] throws on reading [stack]
    from [undefined]; the Failure in the cache is not shown, and [run]
    ends with the TypeError. *)
Example run_void_rejection :
  run Examples.plain Examples.void_registry 1 ["void"] 0 =
    (Thrown (stack_type_error false),
     {| world := 1;
        finished := [("void", Failure (Nullish false))];
        trace := [LogStarting "void"; Invoke "void"; LogAfter "void" false] |}) /\
  shown (trace (snd (run Examples.plain Examples.void_registry 1 ["void"] 0))) =
    [] /\
  failures
    (finished (snd (run Examples.plain Examples.void_registry 1 ["void"] 0))) =
    [Nullish false].
Proof. repeat split. Qed.

Lemma cyclic_registry_ok : registry_ok Examples.cyclic_registry.
Proof. repeat apply task_registry_ok. apply registry_ok_empty. Qed.

Lemma task_cyc_on_cycle :
  on_cycle Examples.plain Examples.cyclic_registry Examples.task_cyc.
Proof.
  apply t_step. exists "cyc", [Examples.task_cyc].
  repeat split; simpl; auto.
Qed.


(** A cycle behind a cached dependency: [cyc] depends on [a] and on itself.
    The cache holds [a], and the run of [cyc] does not come back, whatever
    the fuel. *)
Lemma cyclic_run_diverges fuel :
  fst (run Examples.plain Examples.cyclic_registry fuel ["cyc"] 0) = OutOfFuel.
Proof.
  unfold run, run_from. cbn [top_names].
  change (resolve_task Examples.plain Examples.cyclic_registry "cyc" None)
    with (@inr Error _ [Examples.task_cyc]).
  cbn [top_tasks].
  assert (H : forall st,
             JsMap.get "cyc" (finished st) = None ->
             fst (_run Examples.plain Examples.cyclic_registry fuel
                    Examples.task_cyc st) = OutOfFuel).
  { induction fuel as [|fuel IH]; intros st G; [reflexivity|].
    rewrite run_fresh by exact G.
    change (deps Examples.task_cyc) with ["a"; "cyc"].
    cbn [for_names].
    change (resolve_task Examples.plain Examples.cyclic_registry "a"
              (Some Examples.task_cyc))
      with (@inr Error _ [mkTask "a" [] (Some (Examples.bump (RetValue VUndefined)))]).
    change (resolve_task Examples.plain Examples.cyclic_registry "cyc"
              (Some Examples.task_cyc))
      with (@inr Error _ [Examples.task_cyc]).
    cbn [for_deps].
    set (ta := mkTask "a" [] (Some (Examples.bump (RetValue VUndefined)))).
    pose proof (run_extends Examples.plain Examples.cyclic_registry) as Hext.
    assert (Ga : forall s o s',
               JsMap.get "cyc" (finished s) = None ->
               _run Examples.plain Examples.cyclic_registry fuel ta s = (o, s') ->
               JsMap.get "cyc" (finished s') = None).
    { intros s o s' Gs. destruct fuel as [|f]; [now intros [= <- <-]|].
      simpl. destruct (JsMap.get "a" (finished s)) eqn:Gsa; [now intros [= <- <-]|].
      unfold conclude, exec_task. simpl. intros [= <- <-]. simpl.
      now rewrite JsMapFacts.get_set_other by discriminate. }
    destruct (_run Examples.plain Examples.cyclic_registry fuel ta st)
      as [[r|e|] s1] eqn:Ea.
    - pose proof (Ga _ _ _ G Ea) as G1. specialize (IH s1 G1).
      destruct (_run Examples.plain Examples.cyclic_registry fuel
                  Examples.task_cyc s1) as [[r2|e2|] s2]; simpl in IH;
        try discriminate. reflexivity.
    - exfalso. destruct fuel as [|f]; [discriminate|].
      simpl in Ea. destruct (JsMap.get "a" (finished st)); discriminate.
    - reflexivity. }
  specialize (H (init 0) eq_refl).
  destruct (_run Examples.plain Examples.cyclic_registry fuel Examples.task_cyc
              (init 0)) as [[r|e|] s]; simpl in H; try discriminate.
  reflexivity.
Qed.

(* ================================================================== *)
(** * Exceptions pass through [_run] *)

Section Exceptions.

Context {World : Type}.
Variable cyan : string -> string.
Variable tasks : list (string * Task World).
Implicit Types (t d : Task World) (st : RunState World).

Lemma for_deps_app exec (a b : list (Task World)) failed st :
  for_deps exec (a ++ b) failed st =
    match for_deps exec a failed st with
    | (Done failed', st') => for_deps exec b failed' st'
    | other => other
    end.
Proof.
  revert failed st. induction a as [|x a IH]; intros failed st; simpl.
  - reflexivity.
  - destruct (exec x st) as [[r|e|] s0]; auto.
Qed.

(** An exception out of the execution of a dependency [t] of [p] leaves
    [_run p] as the same exception, in the same state: the later
    dependencies of [p] are not run, nothing is stored or shown for [p]. *)
Lemma thrown_passes_through fuel p pre n rest l1 t l2 b b' e st s1 s2 s3 :
  JsMap.get (name p) (finished st) = None ->
  deps p = pre ++ n :: rest ->
  for_names cyan tasks (_run cyan tasks fuel) p pre false st = (Done b, s1) ->
  resolve_task cyan tasks n (Some p) = inr (l1 ++ t :: l2) ->
  for_deps (_run cyan tasks fuel) l1 b s1 = (Done b', s2) ->
  _run cyan tasks fuel t s2 = (Thrown e, s3) ->
  _run cyan tasks (S fuel) p st = (Thrown e, s3).
Proof.
  intros G Hdeps Hpre R Hl1 Ht.
  rewrite (run_fresh _ _ _ _ _ G), Hdeps, for_names_app, Hpre.
  cbn [for_names]. rewrite R, for_deps_app, Hl1. cbn [for_deps].
  now rewrite Ht.
Qed.

End Exceptions.

(* ================================================================== *)
(** * The engine on small inputs *)

Example split_name_examples :
  split_name "build" = (Some "build", None) /\
  split_name "build:js" = (Some "build", Some "js") /\
  split_name "*:" = (Some "*", Some "") /\
  split_name "a:b:c" = (Some "a", Some "b").
Proof. repeat split. Qed.

(** A wildcard that matches nothing resolves to the empty sequence. *)
Example resolve_missing :
  resolve_task Examples.plain Examples.js_registry "*:missing" None = inr [].
Proof. reflexivity. Qed.

(** A lone [*] has no suffix; the template prints [undefined]. *)
Example resolve_star_alone :
  resolve_task Examples.plain
    (task "x:undefined" (ADeps nat []) None Examples.js_registry) "*" None =
    inr [mkTask "x:undefined" [] None].
Proof. reflexivity. Qed.

(** Registering a name again replaces the task and keeps its place. *)
Example task_overwrites :
  task_names (task "build:js" (ADeps nat ["x:a"]) None Examples.js_registry) =
    ["build:js"; "build:css"; "lint:js"; "x:a"; "y:a:b"] /\
  JsMap.get "build:js"
    (task "build:js" (ADeps nat ["x:a"]) None Examples.js_registry) =
    Some (mkTask "build:js" ["x:a"] None).
Proof. split; reflexivity. Qed.

(** A task without action and without dependencies succeeds with no
    value. *)
Example run_plain_task :
  run Examples.plain Examples.js_registry 1 ["x:a"] 0 =
    (Done (Success VUndefined),
     {| world := 0;
        finished := [("x:a", Success VUndefined)];
        trace := [LogFinished "x:a"] |}).
Proof. reflexivity. Qed.

(** [bad] fails; [lint:js] and [b] are run all the same, the action of
    [top] is not, and the failure of [top] names [top]. *)
Example run_top :
  run Examples.plain Examples.build_registry 3 ["top"] 0 =
    (Done (Failure (BuildError "top" "task 'top' failed")),
     {| world := 4;
        finished := [("a", Success VUndefined);
                     ("bad", Failure (OtherError "boom"));
                     ("lint:js", Success VUndefined);
                     ("b", Success (VNumber 3));
                     ("top", Failure (BuildError "top" "task 'top' failed"))];
        trace := [LogStarting "a"; Invoke "a"; LogAfter "a" true;
                  LogStarting "bad"; Invoke "bad"; LogAfter "bad" false;
                  ShowFailure (OtherError "boom");
                  LogStarting "lint:js"; Invoke "lint:js"; LogAfter "lint:js" true;
                  LogStarting "b"; Invoke "b"; LogAfter "b" true;
                  ShowFailure (BuildError "top" "task 'top' failed")] |}).
Proof. reflexivity. Qed.

(** An unknown dependency stops the whole run with an exception. *)
Example run_ghost :
  run Examples.plain Examples.ghost_registry 2 ["T"; "b"] 0 =
    (Thrown (BuildError "build" "unknown task 'ghost' referenced from 'T'"),
     {| world := 1;
        finished := [("a", Success VUndefined)];
        trace := [LogStarting "a"; Invoke "a"; LogAfter "a" true] |}).
Proof. reflexivity. Qed.

(* ================================================================== *)
(** * Registration *)

Section RegistrationTheorems.

Context {World : Type}.
Implicit Types (tasks : list (string * Task World)) (r : Registration (World:=World)).

Lemma task_registers n d f tasks :
  task n d f tasks =
    JsMap.set n (registration_task (mkRegistration n d f)) tasks.
Proof. unfold task, registration_task. simpl. now destruct d. Qed.

Lemma register_all_snoc rs r :
  register_all (rs ++ [r]) = register r (register_all rs).
Proof. unfold register_all. now rewrite fold_left_app. Qed.

Lemma task_get_same n d f tasks :
  JsMap.get n (task n d f tasks) =
    Some (registration_task (mkRegistration n d f)).
Proof. rewrite task_registers. apply JsMapFacts.get_set_same. Qed.

Lemma task_get_other n n' d f tasks :
  n' <> n -> JsMap.get n' (task n d f tasks) = JsMap.get n' tasks.
Proof. intros Hne. rewrite task_registers. now apply JsMapFacts.get_set_other. Qed.

Lemma task_keys n d f tasks :
  task_names (task n d f tasks) =
    if JsMap.has n tasks then task_names tasks else task_names tasks ++ [n].
Proof.
  rewrite task_registers. unfold task_names, JsMap.has.
  destruct (JsMap.get n tasks) eqn:G.
  - apply JsMapFacts.keys_set_present. congruence.
  - now apply JsMapFacts.keys_set_fresh.
Qed.

Lemma get_some_keys {V} k (v : V) m :
  JsMap.get k m = Some v -> In k (JsMap.keys m).
Proof.
  intros G. destruct (in_dec string_dec k (JsMap.keys m)) as [H|H]; [exact H|].
  apply JsMapFacts.get_none_keys in H. congruence.
Qed.

(** X1.  After [task(name, deps, fn)] the registry holds the new task
    under [name], whatever it held before, and every other name is as it
    was. *)
Theorem task_lookup n d f tasks :
  JsMap.get n (task n d f tasks) =
    Some (registration_task (mkRegistration n d f)) /\
  (forall n', n' <> n ->
     JsMap.get n' (task n d f tasks) = JsMap.get n' tasks).
Proof.
  split; [apply task_get_same|].
  intros n' Hne. now apply task_get_other.
Qed.

(** X2.  [task_names] after a registration: a name that was registered
    keeps its place and the list is unchanged; a new name goes last. *)
Theorem task_names_after_task n d f tasks :
  task_names (task n d f tasks) =
    if JsMap.has n tasks then task_names tasks else task_names tasks ++ [n].
Proof. apply task_keys. Qed.

(** X3.  Whatever the sequence of registrations: the names listed are
    distinct, they are the names that were registered, every task sits
    under its own name, and the last registration of a name is the one the
    registry holds. *)
Theorem register_all_last_wins rs :
  registry_ok (register_all rs) /\
  (forall n, In n (task_names (register_all rs)) <->
             exists r, In r rs /\ reg_name r = n) /\
  (forall pre r rest,
     rs = pre ++ r :: rest ->
     (forall r', In r' rest -> reg_name r' <> reg_name r) ->
     JsMap.get (reg_name r) (register_all rs) = Some (registration_task r)).
Proof.
  split; [|split].
  - induction rs as [|r rs IH] using rev_ind; [apply registry_ok_empty|].
    rewrite register_all_snoc. now apply task_registry_ok.
  - induction rs as [|r rs IH] using rev_ind; intros n.
    + simpl. split; [intros []|intros [r [[] _]]].
    + rewrite register_all_snoc. unfold register.
      rewrite task_keys. unfold JsMap.has.
      destruct (JsMap.get (reg_name r) (register_all rs)) eqn:G.
      * rewrite IH. split.
        -- intros [r' [Hin E]]. exists r'. split; [apply in_or_app; now left|assumption].
        -- intros [r' [Hin E]]. apply in_app_or in Hin as [Hin|[<-|[]]]; [eauto|].
           subst n. apply (proj1 (IH _)). eapply get_some_keys; eauto.
      * rewrite in_app_iff, IH. simpl. split.
        -- intros [[r' [Hin E]]|[<-|[]]].
           ++ exists r'. split; [apply in_or_app; now left|assumption].
           ++ exists r. split; [apply in_or_app; right; now left|reflexivity].
        -- intros [r' [Hin E]]. apply in_app_or in Hin as [Hin|[<-|[]]]; eauto.
  - intros pre r rest. revert rs pre r.
    induction rest as [|x rest IH] using rev_ind; intros rs pre r -> Hlast.
    + rewrite register_all_snoc. unfold register.
      destruct r as [n d f]. apply task_get_same.
    + replace (pre ++ r :: rest ++ [x]) with ((pre ++ r :: rest) ++ [x])
        by (rewrite <- app_assoc; reflexivity).
      rewrite register_all_snoc. unfold register.
      rewrite task_get_other.
      * apply (IH _ pre r eq_refl). intros r' Hr'. apply Hlast.
        apply in_or_app. now left.
      * intros E. apply (Hlast x); [apply in_or_app; right; now left|].
        now symmetry.
Qed.

End RegistrationTheorems.

(* ================================================================== *)
(** * More on the resolver *)

Section ResolverMore.

Context {World : Type}.
Variable cyan : string -> string.
Variable tasks : list (string * Task World).
Implicit Types (t d : Task World) (st : RunState World).

(** When [resolve_task] throws. *)
Lemma resolve_task_inl n p e :
  resolve_task cyan tasks n p = inl e <->
  opt_is (fst (split_name n)) "*" = false /\
  JsMap.has n tasks = false /\
  e = unknown_task cyan n p.
Proof.
  unfold resolve_task. destruct (split_name n) as [prefix suffix]. simpl.
  destruct (opt_is prefix "*").
  - split; [discriminate|intros [H _]; discriminate].
  - unfold JsMap.has. destruct (JsMap.get n tasks).
    + split; [discriminate|intros [_ [H _]]; discriminate].
    + split; [intros [= <-]; auto|intros [_ [_ ->]]; reflexivity].
Qed.

Lemma registry_names (tasks' : list (string * Task World)) :
  registry_ok tasks' -> map name (JsMap.values tasks') = JsMap.keys tasks'.
Proof.
  intros [_ Hall]. unfold JsMap.values, JsMap.keys. rewrite map_map.
  apply map_ext_in. intros kv Hin.
  symmetry. now apply (proj1 (Forall_forall _ _) Hall).
Qed.

Lemma nodup_map_filter {A B} (g : A -> B) (keep : A -> bool) (l : list A) :
  NoDup (map g l) -> NoDup (map g (filter keep l)).
Proof.
  induction l as [|x l IH]; simpl; intros H; [constructor|].
  inversion H as [|? ? Hnot Hnd]; subst.
  destruct (keep x); simpl; [|auto].
  constructor; [|auto].
  intros Hin. apply Hnot. apply in_map_iff in Hin as [y [E Hy]].
  apply filter_In in Hy as [Hy _]. rewrite <- E. now apply in_map.
Qed.

(** X4.  Registering and resolving: a registered task whose name does not
    start with the segment [*] is what its name resolves to, alone,
    whoever asks. *)
Theorem resolve_registered_name t parent :
  registry_ok tasks -> registered tasks t ->
  opt_is (fst (split_name (name t))) "*" = false ->
  resolve_task cyan tasks (name t) parent = inr [t].
Proof.
  intros Hok Ht Hstar.
  pose proof (registered_get tasks t Hok Ht) as G.
  unfold resolve_task. destruct (split_name (name t)) as [prefix suffix].
  simpl in Hstar. rewrite Hstar. unfold JsMap.has. now rewrite G.
Qed.

(** X5.  What a name resolves to: registered tasks only, and no task
    twice, for a wildcard as for an exact name. *)
Theorem resolve_task_no_repeats n parent l :
  registry_ok tasks ->
  resolve_task cyan tasks n parent = inr l ->
  NoDup (map name l) /\ forall x, In x l -> registered tasks x.
Proof.
  intros Hok R. split; [|eapply resolve_task_in; eauto].
  pose proof (registry_names tasks Hok) as Hn. destruct Hok as [Hnd _].
  rewrite <- Hn in Hnd.
  unfold resolve_task in R. destruct (split_name n) as [prefix suffix].
  destruct (opt_is prefix "*").
  - injection R as <-. now apply nodup_map_filter.
  - destruct (JsMap.has n tasks); [|discriminate].
    destruct (JsMap.get n tasks); injection R as <-; simpl;
      repeat constructor; intros [].
Qed.

End ResolverMore.

(* ================================================================== *)
(** * Console output *)

Section ConsoleTheorems.

Import JsString.

Lemma concat_split_on sep s :
  String.concat (String sep EmptyString) (split_on sep s) = s.
Proof.
  induction s as [|c s IH]; simpl; [reflexivity|].
  destruct (Ascii.eqb_spec c sep) as [->|Hne].
  - pose proof (JsStringFacts.split_on_nonempty sep s) as Hn.
    simpl. destruct (split_on sep s) as [|seg segs]; [congruence|].
    simpl in *. now rewrite IH.
  - pose proof (JsStringFacts.split_on_nonempty sep s) as Hn.
    destruct (split_on sep s) as [|seg segs]; [congruence|].
    simpl in *. destruct segs; simpl in *; now rewrite <- IH.
Qed.

Lemma split_on_segments sep s :
  Forall (fun seg => contains sep seg = false) (split_on sep s).
Proof.
  induction s as [|c s IH]; simpl; [repeat constructor|].
  destruct (Ascii.eqb c sep) eqn:E.
  - constructor; [reflexivity|assumption].
  - destruct (split_on sep s) as [|seg segs]; [repeat constructor; simpl; now rewrite E|].
    inversion IH; subst. constructor; [simpl; now rewrite E|assumption].
Qed.

(** X7.  [print] loses nothing and splits at every line break: the
    messages it hands to [log], joined by line breaks, are the message;
    none of them holds a line break; and there is always at least one, the
    empty message included. *)
Theorem print_round_trip message :
  String.concat (String newline EmptyString) (print message) = message /\
  Forall (fun line => contains newline line = false) (print message) /\
  print message <> [].
Proof.
  unfold print. split; [apply concat_split_on|].
  split; [apply split_on_segments|apply JsStringFacts.split_on_nonempty].
Qed.


End ConsoleTheorems.

Lemma js_registry_ok : registry_ok Examples.js_registry.
Proof. repeat apply task_registry_ok. apply registry_ok_empty. Qed.

(** X4, at a concrete input. *)
Lemma resolve_registered_name_witness :
  resolve_task Examples.plain Examples.js_registry "y:a:b" None =
    inr [mkTask "y:a:b" [] None].
Proof.
  apply (resolve_registered_name Examples.plain Examples.js_registry
           (mkTask "y:a:b" [] None) None js_registry_ok).
  - unfold registered. cbv. tauto.
  - reflexivity.
Defined.

(** X5, at a concrete input. *)
Lemma resolve_task_no_repeats_witness :
  NoDup ["build:js"; "lint:js"].
Proof.
  apply (proj1 (resolve_task_no_repeats Examples.plain Examples.js_registry
                  "*:js" None _ js_registry_ok eq_refl)).
Defined.

(* ================================================================== *)
(** * A stronger rule for [_run]

    As [run_rule], with more at hand where [_run] ends: what the
    dependency loops have established ([deps_done]); and with less asked
    of an exception: only the errors that [resolve_task] throws have to
    be accounted for. *)

Section StrongRule.

Context {World : Type}.
Variable cyan : string -> string.
Variable tasks : list (string * Task World).
Hypothesis tasks_ok : registry_ok tasks.
Implicit Types (t d : Task World) (st : RunState World).

Variable I : RunState World -> Prop.
Variable J : option Error -> RunState World -> Prop.

Hypothesis throw_ok :
  forall n (parent : option (Task World)) st,
    I st ->
    opt_is (fst (split_name n)) "*" = false ->
    JsMap.has n tasks = false ->
    J (Some (unknown_task cyan n parent)) st.
Hypothesis fuel_ok : forall st, I st -> J None st.
Hypothesis conclude_ok :
  forall t failed st,
    registered tasks t -> I st ->
    JsMap.get (name t) (finished st) = None ->
    deps_done cyan tasks t failed st ->
    post I J (conclude cyan t failed st).

Lemma for_names_strong exec t names :
  (forall n l x st,
      In n names -> resolve_task cyan tasks n (Some t) = inr l -> In x l ->
      I st -> post I J (exec x st)) ->
  forall failed st, I st ->
    post I J (for_names cyan tasks exec t names failed st).
Proof.
  induction names as [|n names IH]; intros Hx failed st HI; simpl; [assumption|].
  destruct (resolve_task cyan tasks n (Some t)) as [e|l] eqn:R.
  - apply resolve_task_inl in R as (Hs & Hh & ->). simpl. now apply throw_ok.
  - pose proof (for_deps_post exec I J (fun _ => True) l) as Hl.
    lapply Hl; [clear Hl; intros Hl|].
    2:{ intros x s Hin Hs. eapply post_weaken; [| |apply (Hx n l x s)];
          simpl; auto. }
    specialize (Hl failed st HI).
    destruct (for_deps exec l failed st) as [[b|e|] st1]; simpl in Hl; try exact Hl.
    apply IH; [|tauto]. intros; eapply Hx; simpl; eauto.
Qed.

Lemma top_names_strong exec names :
  (forall n l x st,
      In n names -> resolve_task cyan tasks n None = inr l -> In x l ->
      I st -> post I J (exec x st)) ->
  forall st, I st -> post I J (top_names cyan tasks exec names st).
Proof.
  induction names as [|n names IH]; intros Hx st HI; simpl; [assumption|].
  destruct (resolve_task cyan tasks n None) as [e|l] eqn:R.
  - apply resolve_task_inl in R as (Hs & Hh & ->). simpl. now apply throw_ok.
  - pose proof (top_tasks_post exec I J (fun _ => True) l) as Hl.
    lapply Hl; [clear Hl; intros Hl|].
    2:{ intros x s Hin Hs. eapply post_weaken; [| |apply (Hx n l x s)];
          simpl; auto. }
    specialize (Hl st HI).
    destruct (top_tasks exec l st) as [[[r|]|e|] st1]; simpl in Hl; try exact Hl.
    apply IH; [|assumption]. intros; eapply Hx; simpl; eauto.
Qed.

Lemma run_strong fuel :
  forall t st, registered tasks t -> I st ->
    post I J (_run cyan tasks fuel t st).
Proof.
  induction fuel as [|fuel IH]; intros t st Ht HI; [now apply fuel_ok|].
  destruct (JsMap.get (name t) (finished st)) as [r|] eqn:G.
  - now rewrite (run_cached _ _ _ _ _ _ G).
  - rewrite (run_fresh _ _ _ _ _ G).
    pose proof (deps_loop_fresh cyan tasks tasks_ok fuel t false st Ht G) as Hfresh.
    pose proof (for_names_strong (_run cyan tasks fuel) t (deps t)) as Hloop.
    lapply Hloop; [clear Hloop; intros Hloop|].
    2:{ intros n l x s Hn R Hx Hs. apply IH; [|assumption].
        eapply resolve_task_in; eauto. }
    specialize (Hloop false st HI).
    destruct (for_names cyan tasks (_run cyan tasks fuel) t (deps t) false st)
      as [[failed|e|] st1] eqn:E; simpl in *; try assumption.
    destruct Hfresh as [G1 Hne].
    apply for_names_flag in E as (_ & Hall & _ & Hb & Hres).
    2:{ intros n l x Hn R Hx. apply run_keeps_cache; [assumption|].
        eapply resolve_task_in; eauto. }
    apply conclude_ok; auto. split; [assumption|]. split.
    + intros d Hd. split.
      * intros En. apply (Hne d Hd).
        apply (registered_name_inj tasks d t tasks_ok); auto.
        now apply resolved_dep_registered in Hd.
      * destruct Hd as [n [l [Hn [R Hx]]]]. eauto.
    + intros Hf. destruct (Hb Hf) as [H|(n & l & x & e & Hn & R & Hx & Gx)];
        [discriminate|].
      exists x, e. split; [exists n, l; auto|assumption].
Qed.

Lemma run_from_strong fuel names st :
  I st -> post I J (run_from cyan tasks fuel names st).
Proof.
  intros HI. unfold run_from. apply top_names_strong; [|assumption].
  intros n l x s Hn R Hx Hs. apply run_strong; [|assumption].
  eapply resolve_task_in; eauto.
Qed.

End StrongRule.

(* ================================================================== *)
(** * What a run touches *)

Section RunEffects.

Context {World : Type}.
Variable cyan : string -> string.
Variable tasks : list (string * Task World).
Hypothesis tasks_ok : registry_ok tasks.
Implicit Types (t d : Task World) (st : RunState World).

Lemma conclude_tags t failed st :
  tags_agree st -> JsMap.get (name t) (finished st) = None ->
  post tags_agree (fun _ => tags_agree) (conclude cyan t failed st).
Proof.
  intros Hst G.
  assert (Hold : forall n ok r',
             In (LogAfter n ok) (trace st) ->
             exists r, JsMap.get n (JsMap.set (name t) r' (finished st)) = Some r /\
                       is_Success r = ok).
  { intros n ok r' Hin. destruct (Hst n ok Hin) as [r [Gr Hr]].
    exists r. split; [|assumption].
    rewrite JsMapFacts.get_set_other; [assumption|]. intros ->. congruence. }
  unfold conclude. destruct failed; simpl.
  - intros n ok Hin. simpl in *. apply in_app_or in Hin as [Hin|[Hin|[]]];
      [now apply Hold|discriminate].
  - unfold exec_task. destruct (fn t) as [f|]; simpl.
    + destruct (f (world st)) as [w [[v|[v|e]]|e]]; simpl;
        try destruct v; try destruct e; simpl;
        intros m ok Hin; simpl in *;
        repeat (apply in_app_or in Hin as [Hin|[Hin|[]]]; try discriminate);
        try (now apply Hold); try (now apply Hst);
        injection Hin as <- <-; eexists; split;
        try apply JsMapFacts.get_set_same; reflexivity.
    + intros n ok Hin. simpl in *.
      apply in_app_or in Hin as [Hin|[Hin|[]]]; [now apply Hold|discriminate].
Qed.

(** X11.  The tag of a closing line is the tag of the Result in the
    cache: after [run], however it ends, a task whose closing line says
    "Finished ... after" has a Success in the cache, and one whose line
    says "Failed ... after" has a Failure. *)
Theorem run_tags_agree fuel names w n ok :
  In (LogAfter n ok) (trace (snd (run cyan tasks fuel names w))) ->
  exists r,
    JsMap.get n (finished (snd (run cyan tasks fuel names w))) = Some r /\
    is_Success r = ok.
Proof.
  pose proof (run_from_rule cyan tasks tasks_ok tags_agree (fun _ => tags_agree)
                (fun _ _ H => H) (fun _ H => H)
                (fun t failed s _ Hs G => conclude_tags t failed s Hs G)
                fuel names (init w)) as H.
  lapply H; [clear H; intros H|intros ? ? []].
  unfold run.
  destruct (run_from cyan tasks fuel names (init w)) as [[r|e|] s];
    simpl in *; apply H.
Qed.


(** X13.  Requests compose: running [a] and then [b] in one call is
    running [a], and then [b] from the state that [a] left, when [a]
    succeeded; otherwise it is running [a]. *)
Theorem run_from_app fuel a b st :
  run_from cyan tasks fuel (a ++ b) st =
    match run_from cyan tasks fuel a st with
    | (Done (Success _), st') => run_from cyan tasks fuel b st'
    | other => other
    end.
Proof. unfold run_from. apply top_names_app. Qed.

End RunEffects.

(* ================================================================== *)
(** * The shape of the cache and of the calls *)

Section RunShape.

Context {World : Type}.
Variable cyan : string -> string.
Variable tasks : list (string * Task World).
Hypothesis tasks_ok : registry_ok tasks.
Implicit Types (t d : Task World) (st : RunState World).

Lemma before_app_r x y l l' : before x y l -> before x y (l ++ l').
Proof.
  intros (a & b & c & ->). exists a, b, (c ++ l').
  now rewrite <- app_assoc, <- app_comm_cons, <- app_assoc.
Qed.

Lemma before_last x y l : In x l -> before x y (l ++ [y]).
Proof.
  intros Hin. apply in_split in Hin as (a & b & ->).
  exists a, b, []. now rewrite <- app_assoc.
Qed.

(** The end of [_run] keeps the shape, for a task without a cache entry
    whose dependency loops are done. *)
Lemma conclude_structured t failed st :
  registered tasks t ->
  consistent st /\ structured cyan tasks st ->
  JsMap.get (name t) (finished st) = None ->
  deps_done cyan tasks t failed st ->
  post (fun s => consistent s /\ structured cyan tasks s)
       (fun _ s => structured cyan tasks s)
       (conclude cyan t failed st).
Proof.
  intros Ht [Hcons (Hord & (Hkeys & Hclosed) & Hgroups)] G (Hres & Hdeps & Hflag).
  pose proof (conclude_finished cyan t failed st) as Hfin.
  pose proof (conclude_invocations cyan t failed st) as Hinv.
  pose proof (conclude_consistent cyan t failed st Hcons G) as Hcons'.
  assert (Hnew : ~ In (name t) (invocations (trace st))).
  { intros H. now apply (proj2 Hcons _ H). }
  (* the cache after: the old entries, and at most [t] *)
  assert (Hget : forall n r0,
             JsMap.get n (finished st) = Some r0 ->
             JsMap.get n (finished (snd (conclude cyan t failed st))) = Some r0).
  { intros n r0 Gn. rewrite conclude_get_other; [assumption|].
    intros ->. congruence. }
  assert (Hback : forall n r0,
             n <> name t ->
             JsMap.get n (finished (snd (conclude cyan t failed st))) = Some r0 ->
             JsMap.get n (finished st) = Some r0).
  { intros n r0 Hne Gn. now rewrite conclude_get_other in Gn. }
  assert (Hmine : forall r0,
             JsMap.get (name t) (finished (snd (conclude cyan t failed st))) = Some r0 ->
             (failed = true ->
              r0 = Failure (BuildError (name t) (failed_message cyan t))) /\
             (failed = false -> fn t = None -> r0 = Success VUndefined)).
  { intros r0. unfold conclude. destruct failed; simpl.
    - rewrite JsMapFacts.get_set_same. intros [= <-].
      split; [reflexivity|discriminate].
    - unfold exec_task. destruct (fn t) as [f|]; simpl.
      + intros _. split; discriminate.
      + rewrite JsMapFacts.get_set_same. intros [= <-].
        split; [discriminate|reflexivity]. }
  assert (Hshape : structured cyan tasks (snd (conclude cyan t failed st))).
  { split; [|split; [split|]].
    - (* calls_ordered *)
      intros t' d Ht' Hd Hin. rewrite Hinv in Hin |- *.
      apply in_app_or in Hin as [Hin|Hin].
      + destruct (Hord t' d Ht' Hd Hin) as [[v Gv] Hbefore].
        split; [exists v; now apply Hget|].
        intros Hd'. apply before_app_r. apply Hbefore.
        apply in_app_or in Hd' as [Hd'|Hd']; [assumption|].
        destruct failed; [destruct Hd'|]. destruct (fn t); [|destruct Hd'].
        destruct Hd' as [E|[]]. rewrite <- E in Gv. congruence.
      + destruct failed; [destruct Hin|].
        destruct (fn t) as [f|]; [|destruct Hin]. destruct Hin as [E|[]].
        apply (registered_name_inj tasks t t' tasks_ok Ht Ht') in E. subst t'.
        destruct (Hdeps d Hd) as [Hne [rd [Grd Hrd]]].
        destruct rd as [v|e]; [|specialize (Hrd eq_refl); discriminate].
        split; [exists v; now apply Hget|].
        intros Hd'. apply before_last.
        apply in_app_or in Hd' as [Hd'|[E|[]]]; [assumption|congruence].
    - (* the cache holds registered tasks *)
      intros n r0 Gn. destruct (String.eqb_spec n (name t)) as [->|Hne].
      + exists t. auto.
      + eapply Hkeys. apply (Hback n r0 Hne Gn).
    - (* closed under dependencies *)
      intros t' d r0 Ht' Hd Gt'.
      destruct (String.eqb_spec (name t') (name t)) as [E|Hne].
      + apply (registered_name_inj tasks t' t tasks_ok Ht' Ht) in E. subst t'.
        destruct (Hdeps d Hd) as [Hned [rd [Grd Hrd]]].
        exists rd. split; [now apply Hget|].
        intros Hf. apply (Hmine r0 Gt'). auto.
      + destruct (Hclosed t' d r0 Ht' Hd (Hback _ _ Hne Gt')) as [rd [Grd Hrd]].
        exists rd. split; [now apply Hget|assumption].
    - (* tasks without an action *)
      intros t' r0 Ht' Hfn Gt'.
      destruct (String.eqb_spec (name t') (name t)) as [E|Hne].
      + apply (registered_name_inj tasks t' t tasks_ok Ht' Ht) in E. subst t'.
        destruct (Hmine r0 Gt') as [Ht1 Ht2].
        destruct failed.
        * right. split; [auto|].
          destruct (Hflag eq_refl) as (d & e & Hd & Gd).
          exists d, e. split; [assumption|now apply Hget].
        * left. auto.
      + destruct (Hgroups t' r0 Ht' Hfn (Hback _ _ Hne Gt')) as [->|[-> (d & e & Hd & Gd)]];
          [now left|right].
        split; [reflexivity|]. exists d, e. split; [assumption|now apply Hget]. }
  destruct (conclude cyan t failed st) as [[r|e|] s1]; simpl in *;
    [split; assumption|assumption|contradiction].
Qed.

Lemma structured_init w : consistent (init w) /\ structured cyan tasks (init w).
Proof.
  split; [apply consistent_init|].
  split; [|split; [split|]].
  - intros t d _ _ [].
  - intros n r. discriminate.
  - intros t d r _ _. discriminate.
  - intros t r _ _. discriminate.
Qed.

Lemma run_structured fuel names w :
  structured cyan tasks (snd (run cyan tasks fuel names w)).
Proof.
  pose proof (run_from_strong cyan tasks tasks_ok
                (fun s => consistent s /\ structured cyan tasks s)
                (fun _ s => structured cyan tasks s)
                (fun _ _ _ H _ _ => proj2 H) (fun _ H => proj2 H)
                conclude_structured fuel names (init w) (structured_init w)) as H.
  unfold run.
  destruct (run_from cyan tasks fuel names (init w)) as [[r|e|] s];
    simpl in *; tauto.
Qed.

(** X14.  Dependencies first: in the calls of one [run], however it
    ends, the action of a task comes after the action of each of its
    resolved dependencies that was called, and it is called only when
    every resolved dependency has a Success in the cache. *)
Theorem run_calls_dependencies_first fuel names w t d :
  registered tasks t -> resolved_dep cyan tasks t d ->
  In (name t) (invocations (trace (snd (run cyan tasks fuel names w)))) ->
  (exists v,
      JsMap.get (name d) (finished (snd (run cyan tasks fuel names w))) =
        Some (Success v)) /\
  (In (name d) (invocations (trace (snd (run cyan tasks fuel names w)))) ->
   before (name d) (name t)
     (invocations (trace (snd (run cyan tasks fuel names w))))).
Proof. intros Ht Hd. now apply (proj1 (run_structured fuel names w)). Qed.

(** X15.  The cache after [run], however it ends: it holds registered
    tasks only; with a task it holds every resolved dependency of the
    task; and a task with a failed dependency has the failure that names
    the task. *)
Theorem run_cache_closed fuel names w :
  (forall n r,
      JsMap.get n (finished (snd (run cyan tasks fuel names w))) = Some r ->
      exists t, registered tasks t /\ name t = n) /\
  (forall t d r,
      registered tasks t -> resolved_dep cyan tasks t d ->
      JsMap.get (name t) (finished (snd (run cyan tasks fuel names w))) = Some r ->
      exists rd,
        JsMap.get (name d) (finished (snd (run cyan tasks fuel names w))) = Some rd /\
        (is_Failure rd = true ->
         r = Failure (BuildError (name t) ("task '" ++ cyan (name t) ++ "' failed")))).
Proof. exact (proj1 (proj2 (run_structured fuel names w))). Qed.

(** X16.  A task without an action fails through its dependencies only:
    after [run], its cached Result is the Success of [undefined], or it
    is the failure that names the task and some resolved dependency has a
    Failure in the cache. *)
Theorem run_group_result fuel names w t r :
  registered tasks t -> fn t = None ->
  JsMap.get (name t) (finished (snd (run cyan tasks fuel names w))) = Some r ->
  r = Success VUndefined \/
  (r = Failure (BuildError (name t) ("task '" ++ cyan (name t) ++ "' failed")) /\
   exists d e,
     resolved_dep cyan tasks t d /\
     JsMap.get (name d) (finished (snd (run cyan tasks fuel names w))) =
       Some (Failure e)).
Proof. apply (proj2 (proj2 (run_structured fuel names w))). Qed.

(** ** Asking again *)

Lemma all_succeed_extends fuel l st st1 :
  (forall t, In t l -> registered tasks t) ->
  all_succeed cyan tasks fuel l st st1 -> extends st st1.
Proof.
  intros Hreg H. induction H as [st|t l v st st1 st2 E Hl IH]; [apply extends_refl|].
  eapply extends_trans; [|apply IH; intros; apply Hreg; now right].
  pose proof (run_extends cyan tasks tasks_ok fuel t st) as H'.
  rewrite E in H'. apply H'. apply Hreg. now left.
Qed.

Lemma all_succeed_cached fuel l st st1 :
  (forall t, In t l -> registered tasks t) ->
  all_succeed cyan tasks fuel l st st1 ->
  forall s, extends st1 s -> all_succeed cyan tasks fuel l s s.
Proof.
  intros Hreg H. induction H as [st|t l v st st1 st2 E Hl IH]; intros s Hs.
  - constructor.
  - assert (Hext : extends st1 st2)
      by (apply (all_succeed_extends fuel l); [intros; apply Hreg; now right|assumption]).
    econstructor; [|apply IH; [intros; apply Hreg; now right|assumption]].
    destruct fuel as [|f]; [discriminate|].
    apply run_cached. apply Hs, Hext. eapply run_stored; eauto.
Qed.

Lemma names_succeed_extends fuel names st st1 :
  names_succeed cyan tasks fuel names st st1 -> extends st st1.
Proof.
  intros H. induction H as [st|n names l st st1 st2 R Hl _ IH]; [apply extends_refl|].
  eapply extends_trans; [|exact IH].
  apply (all_succeed_extends fuel l); [|assumption].
  intros; eapply resolve_task_in; eauto.
Qed.

Lemma names_succeed_again fuel names st st1 :
  names_succeed cyan tasks fuel names st st1 ->
  forall more s,
    incl more names -> extends st1 s ->
    names_succeed cyan tasks fuel more s s.
Proof.
  intros H. induction H as [st|n names l st st1 st2 R Hl Hns IH]; intros more s Hincl Hs.
  - destruct more as [|m more]; [constructor|]. destruct (Hincl m); now left.
  - assert (Hreg : forall t, In t l -> registered tasks t)
      by (intros; eapply resolve_task_in; eauto).
    assert (H12 : extends st1 st2) by now apply (names_succeed_extends fuel names).
    induction more as [|m more IHm]; [constructor|].
    assert (Hm : names_succeed cyan tasks fuel more s s)
      by (apply IHm; intros x Hx; apply Hincl; now right).
    destruct (Hincl m (or_introl eq_refl)) as [<-|Hin].
    + econstructor; [exact R| |exact Hm].
      apply (all_succeed_cached fuel l st st1 Hreg Hl).
      eapply extends_trans; eauto.
    + pose proof (IH [m] s) as H1. lapply H1; [clear H1; intros H1|].
      2:{ intros x [<-|[]]. assumption. }
      specialize (H1 Hs). inversion H1 as [|? ? l0 ? s1' ? R0 Hl0 Hn0]; subst.
      inversion Hn0; subst.
      econstructor; [exact R0|exact Hl0|exact Hm].
Qed.

(** X17.  Asking again changes nothing: requested names that were
    requested earlier in the same call leave the outcome and the state
    of [run] as they are without them. *)
Theorem run_from_asked_again fuel names more st :
  incl more names ->
  run_from cyan tasks fuel (names ++ more) st = run_from cyan tasks fuel names st.
Proof.
  intros Hincl. unfold run_from. rewrite top_names_app.
  destruct (top_names cyan tasks (_run cyan tasks fuel) names st)
    as [[[v|e]|e|] s] eqn:E; try reflexivity.
  apply (run_from_names_succeed cyan tasks fuel names st v s) in E as [-> Hns].
  apply names_succeed_run_from.
  apply (names_succeed_again fuel names st s Hns more s Hincl (extends_refl s)).
Qed.

End RunShape.

(* ================================================================== *)
(** * The further theorems on the example registries *)

Lemma ghost_registry_typed : typed_registry Examples.ghost_registry.
Proof.
  intros t f w Ht Hfn. unfold registered in Ht. simpl in Ht.
  repeat (destruct Ht as [<-|Ht];
          [simpl in Hfn; try discriminate; injection Hfn as <-; exact I|]).
  destruct Ht.
Qed.

Lemma ghost_registry_printable : printable_failures Examples.ghost_registry.
Proof.
  intros t f w Ht Hfn. unfold registered in Ht. simpl in Ht.
  repeat (destruct Ht as [<-|Ht];
          [simpl in Hfn; try discriminate; injection Hfn as <-; exact I|]).
  destruct Ht.
Qed.

Lemma ghost_registry_acyclic : acyclic Examples.plain Examples.ghost_registry.
Proof.
  apply (ranked_acyclic Examples.plain Examples.ghost_registry
           (fun t => length (deps t))).
  intros t d Ht [n [l [Hn [R Hd]]]].
  unfold registered in Ht. simpl in Ht.
  repeat (destruct Ht as [<-|Ht];
          [simpl in Hn;
           repeat (destruct Hn as [<-|Hn];
                   [vm_compute in R; try discriminate R; injection R as <-;
                    simpl in Hd;
                    repeat (destruct Hd as [<-|Hd]; [vm_compute; lia|]);
                    destruct Hd|]);
           destruct Hn|]).
  destruct Ht.
Qed.

(** X11, at a concrete input: the closing line of [bad] says Failed. *)
Lemma run_tags_agree_witness :
  exists r,
    JsMap.get "bad"
      (finished (snd (run Examples.plain Examples.build_registry 3 ["top"] 0))) =
      Some r /\
    is_Success r = false.
Proof.
  apply (run_tags_agree Examples.plain Examples.build_registry
           build_registry_ok 3 ["top"] 0 "bad" false).
  cbv. tauto.
Defined.


(** X14, at a concrete input: [left] depends on [a]. *)
Lemma run_calls_dependencies_first_witness :
  before "a" "left"
    (invocations
       (trace (snd (run Examples.plain Examples.build_registry 3 ["both"] 0)))).
Proof.
  refine (proj2 (run_calls_dependencies_first Examples.plain
                   Examples.build_registry build_registry_ok 3 ["both"] 0
                   (mkTask "left" ["a"]
                      (Some (Examples.bump (RetResult (Success (VNumber 1))))))
                   (mkTask "a" [] (Some (Examples.bump (RetValue VUndefined))))
                   _ _ _) _).
  - unfold registered. cbv. tauto.
  - exists "a", [mkTask "a" [] (Some (Examples.bump (RetValue VUndefined)))].
    repeat split; simpl; auto.
  - cbv. tauto.
  - cbv. tauto.
Defined.

(** X15, at a concrete input. *)
Lemma run_cache_closed_witness :
  exists t, registered Examples.build_registry t /\ name t = "lint:js".
Proof.
  apply (proj1 (run_cache_closed Examples.plain Examples.build_registry
                  build_registry_ok 3 ["top"] 0)
           "lint:js" (Success VUndefined)).
  reflexivity.
Defined.

(** X16, at a concrete input: [both] has no action, and no dependency of
    it fails. *)
Lemma run_group_result_witness :
  Success VUndefined = Success VUndefined \/
  (Success VUndefined = Failure (BuildError "both" "task 'both' failed") /\
   exists d e,
     resolved_dep Examples.plain Examples.build_registry
       (mkTask "both" ["left"; "right"] None) d /\
     JsMap.get (name d)
       (finished (snd (run Examples.plain Examples.build_registry 3 ["both"] 0))) =
       Some (Failure e)).
Proof.
  apply (run_group_result Examples.plain Examples.build_registry
           build_registry_ok 3 ["both"] 0
           (mkTask "both" ["left"; "right"] None) (Success VUndefined)).
  - unfold registered. cbv. tauto.
  - reflexivity.
  - reflexivity.
Defined.

(** X17, at a concrete input: [a] is asked for again after [left]. *)
Lemma run_from_asked_again_witness :
  run_from Examples.plain Examples.build_registry 3 (["left"; "a"] ++ ["a"]) (init 0) =
  run_from Examples.plain Examples.build_registry 3 ["left"; "a"] (init 0).
Proof.
  apply (run_from_asked_again Examples.plain Examples.build_registry
           build_registry_ok 3 ["left"; "a"] ["a"] (init 0)).
  intros x [<-|[]]. simpl. auto.
Defined.
